(** * QP/C active-object framework: the Missile active object of the "Fly'n'Shoot"
    game, the hierarchical state machine dispatcher that runs it, and the
    event pools, event queues and publish/subscribe registry around it.

    The state handlers are embedded from
    [examples/arm-cm/game_efm32-slstk3401a/missile.c].  The framework itself
    (qep_hsm.c, qf_dyn.c, qf_mem.c, qf_qeq.c, qf_actq.c, qf_ps.c) and the
    headers game.h and bsp.h are not among the sources; what is needed of
    them is either taken as a parameter or modelled from the specification,
    and marked so. *)

From Stdlib Require Import ZArith Lia List.
From stdpp Require Import base numbers list option.

Local Open Scope Z_scope.

(** ** Fixed-width integers of the C sources *)

(** Conversion to [uint8_t]. *)
Definition u8 (z : Z) : Z := z mod 2 ^ 8.

(** Conversion to [unsigned int] (32 bits on the ARM Cortex-M target). *)
Definition u32 (z : Z) : Z := z mod 2 ^ 32.

(** Conversion to [int8_t] (two's complement, as the ARM compilers do it). *)
Definition i8 (z : Z) : Z := (z + 2 ^ 7) mod 2 ^ 8 - 2 ^ 7.

(** ** The event processor *)

Module QEP.

(** What a state handler returns: [Q_HANDLED()], [Q_TRAN(target)],
    [Q_SUPER(super)]; [Q_IGNORED] is what the top state answers. *)
Inductive QState (State : Type) : Type :=
  | Q_HANDLED
  | Q_IGNORED
  | Q_TRAN (target : State)
  | Q_SUPER (super : State).
Arguments Q_HANDLED {State}.
Arguments Q_IGNORED {State}.
Arguments Q_TRAN {State} target.
Arguments Q_SUPER {State} super.

(** An exit or entry action executed by the dispatcher. *)
Inductive Action (State : Type) : Type :=
  | Exit (s : State)
  | Entry (s : State).
Arguments Exit {State} s.
Arguments Entry {State} s.

Global Instance Action_eq_dec {State : Type} `{EqDecision State} :
  EqDecision (Action State).
Proof. solve_decision. Defined.

Definition action_state {State : Type} (a : Action State) : State :=
  match a with Exit s => s | Entry s => s end.

Definition is_exit {State : Type} (a : Action State) : bool :=
  match a with Exit _ => true | Entry _ => false end.

(** Outcome of the walk up the ancestors with the event. *)
Inductive Found (State : Type) : Type :=
  | Unhandled
  | HandledBy (s : State)
  | TranFrom (source target : State).
Arguments Unhandled {State}.
Arguments HandledBy {State} s.
Arguments TranFrom {State} source target.

Section Dispatch.
Context {State Evt Ext : Type} `{EqDecision State}.

(** Modelled from the spec: the static table of states (qep_hsm.c and the
    state tables are missing): the parent link of every state (the root has
    none), the depth of every state (the root has depth 0) and the depth of
    the deepest state. *)
Variable parent : State -> option State.
Variable depth : State -> nat.
Variable height : nat.

(** The state handlers, [handler s me e], acting on the extended state
    [me] of the machine. *)
Variable handler : State -> Ext -> Evt -> Ext * QState State.

(** The reserved entry, exit and init pseudo-events. *)
Variables Q_ENTRY_EVT Q_EXIT_EVT Q_INIT_EVT : Evt.

(** Modelled from the spec: the ancestor chain of a state (the dispatcher,
    qep_hsm.c, is missing), the state first and the root last. *)
Fixpoint up (n : nat) (s : State) : list State :=
  match n with
  | O => []
  | S k => s :: match parent s with
                | Some p => up k p
                | None => []
                end
  end.

Definition ancestors (s : State) : list State := up (S (depth s)) s.

(** Modelled from the spec: the least common ancestor of source and target
    (the dispatcher, qep_hsm.c, is missing): the first node of the source's
    chain that is on the target's chain; for a self-transition it is the
    source's parent, which forces the exit and the entry of the source. *)
Definition lca (source target : State) : option State :=
  if decide (source = target) then parent source
  else List.find (fun a => bool_decide (a ∈ ancestors target))
                 (ancestors source).

(** Modelled from the spec: the part of an ancestor chain strictly below
    [stop] (the dispatcher, qep_hsm.c, is missing); these are the states a
    transition with least common ancestor [stop] exits, or enters in the
    reverse order. *)
Fixpoint below (stop : option State) (path : list State) : list State :=
  match path with
  | [] => []
  | s :: rest =>
      if decide (Some s = stop) then [] else s :: below stop rest
  end.

(** Modelled from the spec: steps 3 and 4 of dispatch (the dispatcher,
    qep_hsm.c, is missing): delivers the exit or the entry pseudo-event to
    the handler of every state of [path] in turn and logs the action. *)
Fixpoint run_actions (mk : State -> Action State) (ev : Evt)
    (path : list State) (me : Ext) : Ext * list (Action State) :=
  match path with
  | [] => (me, [])
  | s :: rest =>
      let '(me', tr) := run_actions mk ev rest (handler s me ev).1 in
      (me', mk s :: tr)
  end.

(** Modelled from the spec: step 1 of dispatch (the dispatcher, qep_hsm.c,
    is missing): walk up from the current state invoking each handler with
    the event until one handles it or the root has ignored it.  A handler
    that does not handle the event names its parent, [Q_SUPER(parent)], as
    the handlers of missile.c do. *)
Fixpoint walk (fuel : nat) (s : State) (me : Ext) (e : Evt)
    : Ext * Found State :=
  match fuel with
  | O => (me, Unhandled)
  | S k =>
      match handler s me e with
      | (me', Q_HANDLED) => (me', HandledBy s)
      | (me', Q_TRAN t) => (me', TranFrom s t)
      | (me', Q_SUPER p) => walk k p me' e
      | (me', Q_IGNORED) => (me', Unhandled)
      end
  end.

(** Modelled from the spec: step 1 of dispatch at the current state (the
    dispatcher, qep_hsm.c, is missing): which state, the current one or one
    of its ancestors, answers the event, and how. *)
Definition find_handler (cur : State) (me : Ext) (e : Evt)
    : Ext * Found State :=
  walk (S (depth cur)) cur me e.

(** Modelled from the spec: step 5 of dispatch (the dispatcher, qep_hsm.c,
    is missing): while the state just entered declares an initial
    transition, enter the states from below it down to the transition's
    target. *)
Fixpoint drill (fuel : nat) (s : State) (me : Ext)
    : State * Ext * list (Action State) :=
  match fuel with
  | O => (s, me, [])
  | S k =>
      match handler s me Q_INIT_EVT with
      | (me1, Q_TRAN t) =>
          let '(me2, tr) :=
            run_actions Entry Q_ENTRY_EVT
              (rev (below (Some s) (ancestors t))) me1 in
          let '(s', me3, tr') := drill k t me2 in
          (s', me3, tr ++ tr')
      | (me1, _) => (s, me1, [])
      end
  end.

(** Modelled from the spec: [dispatch(hsm, event)] (the dispatcher,
    qep_hsm.c, is missing).  The exits start at the current state, so that
    the states between it and the source are left too when the event was
    handled higher up.  Returns the settled state, the extended state and
    the exit and entry actions in the order they were executed. *)
Definition dispatch (cur : State) (me : Ext) (e : Evt)
    : State * Ext * list (Action State) :=
  match walk (S (depth cur)) cur me e with
  | (me1, TranFrom source target) =>
      let stop := lca source target in
      let '(me2, xs) :=
        run_actions Exit Q_EXIT_EVT (below stop (ancestors cur)) me1 in
      let '(me3, ns) :=
        run_actions Entry Q_ENTRY_EVT
          (rev (below stop (ancestors target))) me2 in
      let '(fin, me4, ds) := drill height target me3 in
      (fin, me4, xs ++ ns ++ ds)
  | (me1, _) => (cur, me1, [])
  end.

(** Modelled from the spec: the initial transition taken when the active
    object is started (the dispatcher, qep_hsm.c, is missing): the initial
    pseudostate names the first state, which is entered from the root
    down. *)
Definition init (root : State) (initial : Ext -> Evt -> Ext * QState State)
    (me : Ext) (e : Evt) : State * Ext * list (Action State) :=
  match initial me e with
  | (me1, Q_TRAN t) =>
      let '(me2, ns) :=
        run_actions Entry Q_ENTRY_EVT
          (rev (below (Some root) (ancestors t))) me1 in
      let '(fin, me3, ds) := drill height t me2 in
      (fin, me3, ns ++ ds)
  | (me1, _) => (root, me1, [])
  end.

End Dispatch.

End QEP.

(** ** A machine with states nested three deep

    The root [R] has the children [G] and [B]; [P] is under [G] and [A]
    under [P], so that [A] has depth 3 and [B] depth 1.  Every handler
    records that it was invoked. *)

Module Nested.
Import QEP.

Inductive State : Type := R | G | P | A | B.

Global Instance State_eq_dec : EqDecision State.
Proof. solve_decision. Defined.

Inductive Evt : Type := ENTRY | EXIT | INIT | GO_B | AGAIN | AGAIN_P.

Definition parent (s : State) : option State :=
  match s with
  | R => None
  | G => Some R
  | P => Some G
  | A => Some P
  | B => Some R
  end.

Definition depth (s : State) : nat :=
  match s with
  | R => 0
  | G => 1
  | P => 2
  | A => 3
  | B => 1
  end.

Definition height : nat := 3.

(** The extended state is the log of handler invocations, oldest first. *)
Definition Log : Type := list (State * Evt).

Definition handler (s : State) (log : Log) (e : Evt) : Log * QState State :=
  (log ++ [(s, e)],
   match e, s with
   | (ENTRY | EXIT), _ => Q_HANDLED
   | GO_B, A => Q_TRAN B
   | AGAIN, A => Q_TRAN A
   | AGAIN_P, P => Q_TRAN P
   | _, _ => match parent s with
             | Some p => Q_SUPER p
             | None => Q_IGNORED
             end
   end).

Definition dispatch (cur : State) (log : Log) (e : Evt)
    : State * Log * list (Action State) :=
  QEP.dispatch parent depth height handler ENTRY EXIT INIT cur log e.

End Nested.

(** ** The Missile active object (missile.c) *)

Module Missile.
Import QEP.

(** The signals missile.c names, and every other signal of the application
    ([QSignal] is an integer; the enumeration of game.h is missing). *)
Inductive Signal : Type :=
  | Q_EMPTY_SIG
  | Q_ENTRY_SIG
  | Q_EXIT_SIG
  | Q_INIT_SIG
  | TIME_TICK_SIG
  | HIT_WALL_SIG
  | MISSILE_IMG_SIG
  | MISSILE_FIRE_SIG
  | DESTROYED_MINE_SIG
  | EXPLOSION_SIG
  | OTHER_SIG (n : Z).

Global Instance Signal_eq_dec : EqDecision Signal.
Proof. solve_decision. Defined.

(** An event as a handler reads it: the signal, and the two [uint8_t]
    coordinates that [Q_EVT_CAST(ObjectPosEvt)] finds behind it. *)
Record QEvt : Type := mkQEvt { sig : Signal; pos_x : Z; pos_y : Z }.

(** [ObjectImageEvt] of game.h: [uint8_t x], [int8_t y], [uint8_t bmp]. *)
Record ObjectImageEvt : Type :=
  mkImage { img_sig : Signal; img_x : Z; img_y : Z; img_bmp : Z }.

(** The active objects the Missile talks to. *)
Inductive AO : Type := AO_Tunnel | AO_Ship.

(** The posts and the subscriptions a handler makes; they are recorded, in
    the order they are made.  [Q_NEW], which takes the event to post from a
    pool, is not recorded: it is taken to find a free block. *)
Inductive Effect : Type :=
  | QActive_subscribe (s : Signal)
  | QACTIVE_POST_image (target : AO) (oie : ObjectImageEvt)
  | QACTIVE_POST_evt (target : AO) (e : QEvt).

(** The state handlers of the machine; [QHsm_top] is the framework's root. *)
Inductive State : Type := QHsm_top | armed | flying | exploding.

Global Instance State_eq_dec : EqDecision State.
Proof. solve_decision. Defined.

(** The private attributes of [struct Missile]. *)
Record Missile : Type := mkMissile { x : Z; y : Z; exp_ctr : Z }.

Definition set_x (me : Missile) (v : Z) : Missile :=
  {| x := v; y := y me; exp_ctr := exp_ctr me |}.
Definition set_y (me : Missile) (v : Z) : Missile :=
  {| x := x me; y := v; exp_ctr := exp_ctr me |}.
Definition set_exp_ctr (me : Missile) (v : Z) : Missile :=
  {| x := x me; y := y me; exp_ctr := v |}.

(** [l_missile] is a static object: its attributes start at zero. *)
Definition l_missile : Missile := {| x := 0; y := 0; exp_ctr := 0 |}.

(** What one dispatched event did to the active object. *)
Record Outcome : Type := mkOutcome {
  next : State;
  attrs : Missile;
  calls : list Effect;
  actions : list (QEP.Action State)
}.

Section Handlers.
(** Constants of game.h and of the bitmap table, which are missing; they
    are unsigned constants, as every literal of missile.c is. *)
Variables GAME_MISSILE_SPEED_X GAME_TUNNEL_WIDTH GAME_SPEED_X : Z.
Variables MISSILE_BMP EXPLOSION0_BMP : Z.

Definition Handler : Type := Missile -> QEvt -> Missile * list Effect * QState State.

(** missile.c, lines 60-76. *)
Definition Missile_initial : Handler := fun me e =>
  (me, [QActive_subscribe TIME_TICK_SIG], Q_TRAN armed).

(** missile.c, lines 78-94. *)
Definition Missile_armed : Handler := fun me e =>
  match sig e with
  | MISSILE_FIRE_SIG =>
      let me := set_x me (pos_x e) in
      let me := set_y me (pos_y e) in
      (me, [], Q_TRAN flying)
  | _ => (me, [], Q_SUPER QHsm_top)
  end.

(** The guard [me->x + GAME_MISSILE_SPEED_X < GAME_TUNNEL_WIDTH], computed
    in [unsigned int]. *)
Definition flying_guard (me : Missile) : bool :=
  u32 (x me + GAME_MISSILE_SPEED_X) <? GAME_TUNNEL_WIDTH.

(** missile.c, lines 96-136. *)
Definition Missile_flying : Handler := fun me e =>
  match sig e with
  | TIME_TICK_SIG =>
      if flying_guard me then
        let me := set_x me (u8 (x me + GAME_MISSILE_SPEED_X)) in
        let oie := {| img_sig := MISSILE_IMG_SIG;
                      img_x := x me;
                      img_y := i8 (y me);
                      img_bmp := u8 MISSILE_BMP |} in
        (me, [QACTIVE_POST_image AO_Tunnel oie], Q_HANDLED)
      else (me, [], Q_TRAN armed)
  | HIT_WALL_SIG => (me, [], Q_TRAN exploding)
  | DESTROYED_MINE_SIG => (me, [QACTIVE_POST_evt AO_Ship e], Q_TRAN armed)
  | _ => (me, [], Q_SUPER QHsm_top)
  end.

(** The guard [(me->x >= GAME_SPEED_X) && (me->exp_ctr < 15U)]. *)
Definition exploding_guard (me : Missile) : bool :=
  (GAME_SPEED_X <=? x me) && (exp_ctr me <? 15).

(** missile.c, lines 138-176. *)
Definition Missile_exploding : Handler := fun me e =>
  match sig e with
  | Q_ENTRY_SIG => (set_exp_ctr me 0, [], Q_HANDLED)
  | TIME_TICK_SIG =>
      if exploding_guard me then
        let me := set_exp_ctr me (u8 (exp_ctr me + 1)) in
        let me := set_x me (u8 (x me - GAME_SPEED_X)) in
        let oie := {| img_sig := EXPLOSION_SIG;
                      img_x := u8 (x me + 3);
                      img_y := i8 (u32 (y me - 4));
                      img_bmp := u8 (EXPLOSION0_BMP + Z.shiftr (exp_ctr me) 2) |} in
        (me, [QACTIVE_POST_image AO_Tunnel oie], Q_HANDLED)
      else (me, [], Q_TRAN armed)
  | _ => (me, [], Q_SUPER QHsm_top)
  end.

(** Modelled from the spec: the root state (qep_hsm.c is missing): it
    handles nothing and ends the walk up the ancestors. *)
Definition QHsm_top_handler : Handler := fun me e => (me, [], Q_IGNORED).

Definition state_handler (s : State) : Handler :=
  match s with
  | QHsm_top => QHsm_top_handler
  | armed => Missile_armed
  | flying => Missile_flying
  | exploding => Missile_exploding
  end.

(** The state tree of the machine: the three states sit directly under the
    root, as their [Q_SUPER(&QHsm_top)] says. *)
Definition parent (s : State) : option State :=
  match s with
  | QHsm_top => None
  | _ => Some QHsm_top
  end.

Definition depth (s : State) : nat :=
  match s with
  | QHsm_top => 0
  | _ => 1
  end.

Definition height : nat := 1.

(** The active object as the dispatcher sees it: the attributes, and the
    framework calls made so far, oldest first. *)
Definition Ext : Type := Missile * list Effect.

Definition handler (s : State) (w : Ext) (e : QEvt) : Ext * QState State :=
  let '(me, out, r) := state_handler s w.1 e in ((me, w.2 ++ out), r).

Definition pseudo (s : Signal) : QEvt := {| sig := s; pos_x := 0; pos_y := 0 |}.

Definition dispatch (cur : State) (w : Ext) (e : QEvt)
    : State * Ext * list (Action State) :=
  QEP.dispatch parent depth height handler
    (pseudo Q_ENTRY_SIG) (pseudo Q_EXIT_SIG) (pseudo Q_INIT_SIG) cur w e.

(** [QACTIVE_START]: the initial transition out of [Missile_initial]. *)
Definition start : State * Ext * list (Action State) :=
  QEP.init parent depth height handler
    (pseudo Q_ENTRY_SIG) (pseudo Q_INIT_SIG) QHsm_top
    (fun w e => let '(me, out, r) := Missile_initial w.1 e in ((me, w.2 ++ out), r))
    (l_missile, []) (pseudo Q_EMPTY_SIG).

(** One run-to-completion step of the active object, its outbox looked at
    afresh: the settled state, the attributes, the framework calls made
    and the exit and entry actions executed during this step. *)
Definition step (c : State * Missile) (e : QEvt) : Outcome :=
  let '(s, w, acts) := dispatch c.1 (c.2, []) e in
  {| next := s; attrs := w.1; calls := w.2; actions := acts |}.

(** The outcome of each event of a script, oldest first. *)
Fixpoint trace (c : State * Missile) (es : list QEvt) : list Outcome :=
  match es with
  | [] => []
  | e :: rest => let r := step c e in r :: trace (next r, attrs r) rest
  end.

(** The machine after a whole script. *)
Fixpoint after (c : State * Missile) (es : list QEvt) : State * Missile :=
  match es with
  | [] => c
  | e :: rest => let r := step c e in after (next r, attrs r) rest
  end.

(** The attributes after one position update in [flying]. *)
Definition fly (me : Missile) : Missile :=
  set_x me (u8 (x me + GAME_MISSILE_SPEED_X)).

(** The attributes after one stage of the explosion. *)
Definition explode (me : Missile) : Missile :=
  set_x (set_exp_ctr me (u8 (exp_ctr me + 1))) (u8 (x me - GAME_SPEED_X)).

(** What a position update looks like from outside: the Missile stays in
    [flying] at the new position and posts one image event to the Tunnel. *)
Definition position_update (me' : Missile) : Outcome :=
  {| next := flying;
     attrs := me';
     calls := [QACTIVE_POST_image AO_Tunnel
                 {| img_sig := MISSILE_IMG_SIG; img_x := x me';
                    img_y := i8 (y me'); img_bmp := u8 MISSILE_BMP |}];
     actions := [] |}.

(** What a stage of the explosion looks like from outside. *)
Definition explosion_update (me' : Missile) : Outcome :=
  {| next := exploding;
     attrs := me';
     calls := [QACTIVE_POST_image AO_Tunnel
                 {| img_sig := EXPLOSION_SIG; img_x := u8 (x me' + 3);
                    img_y := i8 (u32 (y me' - 4));
                    img_bmp := u8 (EXPLOSION0_BMP + Z.shiftr (exp_ctr me') 2) |}];
     actions := [] |}.

(** What a transition from [from] to [to] looks like from outside. *)
Definition transition (from to : State) (me : Missile) : Outcome :=
  {| next := to; attrs := me; calls := [];
     actions := [Exit from; Entry to] |}.

(** An event that changes nothing. *)
Definition ignored (s : State) (me : Missile) : Outcome :=
  {| next := s; attrs := me; calls := []; actions := [] |}.

(** The boundary condition of [flying] holds for the first time after [n]
    position updates, that is on tick [n + 1]. *)
Definition boundary_first_after (n : nat) (me : Missile) : Prop :=
  (forall k, (k < n)%nat -> flying_guard (Nat.iter k fly me) = true) /\
  flying_guard (Nat.iter n fly me) = false.

(** Whether an outcome is a position update: one image of the Missile
    posted to the Tunnel. *)
Definition is_position_update (o : Outcome) : bool :=
  match calls o with
  | [QACTIVE_POST_image AO_Tunnel oie] =>
      bool_decide (img_sig oie = MISSILE_IMG_SIG)
  | _ => false
  end.

(** Whether an outcome is a transition into [s]. *)
Definition enters (s : State) (o : Outcome) : bool :=
  bool_decide (Entry s ∈ actions o).

(** Whether an outcome is a stage of the explosion: one explosion image
    posted to the Tunnel. *)
Definition is_explosion_update (o : Outcome) : bool :=
  match calls o with
  | [QACTIVE_POST_image AO_Tunnel oie] =>
      bool_decide (img_sig oie = EXPLOSION_SIG)
  | _ => false
  end.

(** What forwarding a destroyed mine to the Ship looks like from outside. *)
Definition mine_reported (me : Missile) (e : QEvt) : Outcome :=
  {| next := armed; attrs := me; calls := [QACTIVE_POST_evt AO_Ship e];
     actions := [Exit flying; Entry armed] |}.

(** While the machine is in exploding the counter is between 0 and 15. *)
Definition counter_bounded (c : State * Missile) : Prop :=
  c.1 = exploding -> 0 <= exp_ctr c.2 <= 15.

Definition TIME_TICK : QEvt := pseudo TIME_TICK_SIG.
Definition HIT_WALL : QEvt := pseudo HIT_WALL_SIG.
Definition MISSILE_FIRE (px py : Z) : QEvt :=
  {| sig := MISSILE_FIRE_SIG; pos_x := px; pos_y := py |}.

End Handlers.

End Missile.

(** ** The framework: event pools, event queues, publish/subscribe *)

Module QF.

(** A reference to an event: a statically allocated one (pool id "none"), or
    block [block] of pool [pool]. *)
Inductive EvtRef : Type :=
  | Static (sig : Z)
  | Pooled (pool block : nat).

Global Instance EvtRef_eq_dec : EqDecision EvtRef.
Proof. solve_decision. Defined.

(** The header of the event stored in a pool block. *)
Record Block : Type := mkBlock { blk_sig : Z; refCtr : Z }.

(** Modelled from the spec: an event pool (qf_mem.c is missing): its block
    size, its configured block count, the blocks, the free list, the count
    of free blocks and the lowest count of free blocks ever seen. *)
Record Pool : Type := mkPool {
  blockSize : nat;
  nTot : nat;
  blocks : list Block;
  free : list nat;
  nFree : nat;
  nMin : nat
}.

Definition Pool_init (bs n : nat) : Pool :=
  {| blockSize := bs; nTot := n; blocks := replicate n (mkBlock 0 0);
     free := seq 0 n; nFree := n; nMin := n |}.

(** Modelled from the spec: popping a free block from the free list of a
    pool (qf_mem.c is missing), with the watermark of the free count. *)
Definition Pool_get (P : Pool) : option (nat * Pool) :=
  match free P with
  | [] => None
  | b :: rest =>
      Some (b, {| blockSize := blockSize P; nTot := nTot P;
                  blocks := blocks P; free := rest;
                  nFree := (nFree P - 1)%nat;
                  nMin := Nat.min (nMin P) (nFree P - 1) |})
  end.

(** Modelled from the spec: returning a block to the free list of its pool
    (qf_mem.c is missing). *)
Definition Pool_put (b : nat) (P : Pool) : Pool :=
  {| blockSize := blockSize P; nTot := nTot P; blocks := blocks P;
     free := b :: free P; nFree := (nFree P + 1)%nat; nMin := nMin P |}.

(** Modelled from the spec: stamping the event header of block [b]
    (qf_dyn.c is missing). *)
Definition Pool_stamp (b : nat) (h : Block) (P : Pool) : Pool :=
  {| blockSize := blockSize P; nTot := nTot P;
     blocks := <[b := h]> (blocks P);
     free := free P; nFree := nFree P; nMin := nMin P |}.

(** Modelled from the spec: an event queue (qf_qeq.c is missing): a ring of
    event references of fixed capacity with head and tail indices taken
    modulo the capacity, and the number of queued entries. *)
Record Queue : Type := mkQueue {
  ring : list EvtRef;
  head : nat;
  tail : nat;
  nUsed : nat
}.

Definition capacity (q : Queue) : nat := length (ring q).

Definition Queue_init (cap : nat) : Queue :=
  {| ring := replicate cap (Static 0); head := 0; tail := 0; nUsed := 0 |}.

Definition is_full (q : Queue) : bool := (capacity q <=? nUsed q)%nat.

(** Modelled from the spec: the queued references, the oldest first
    (qf_qeq.c is missing). *)
Definition contents (q : Queue) : list EvtRef :=
  take (nUsed q) (rotate (head q) (ring q)).

(** Modelled from the spec: insertion at the tail of the ring (qf_qeq.c is
    missing). *)
Definition Queue_insert (e : EvtRef) (q : Queue) : Queue :=
  {| ring := <[tail q := e]> (ring q); head := head q;
     tail := ((tail q + 1) mod capacity q)%nat;
     nUsed := (nUsed q + 1)%nat |}.

(** Modelled from the spec: [pop(queue)] (qf_qeq.c is missing): removes and
    returns the head entry; [None] when the queue is empty. *)
Definition Queue_pop (q : Queue) : option (EvtRef * Queue) :=
  if (0 <? nUsed q)%nat then
    match ring q !! head q with
    | Some e =>
        Some (e, {| ring := ring q;
                    head := ((head q + 1) mod capacity q)%nat;
                    tail := tail q; nUsed := (nUsed q - 1)%nat |})
    | None => None
    end
  else None.

(** Modelled from the spec: what a post does when the queue is full (the
    configuration of qf_actq.c is missing). *)
Inductive Policy : Type := Drop | Fatal.

(** Modelled from the spec: an active object (qf_act.c is missing), as far
    as the framework's event traffic goes: its queue and the overflow policy
    of that queue. *)
Record Active : Type := mkActive { queue : Queue; policy : Policy }.

Definition set_queue (q : Queue) (a : Active) : Active :=
  {| queue := q; policy := policy a |}.

(** Modelled from the spec: the process-wide context (the module-level
    tables of qf_dyn.c, qf_act.c and qf_ps.c are missing): the pools in
    ascending block size, the active objects indexed by priority, the
    subscriber registry (signal, priority) and the number of times the
    failure hook has fired. *)
Record QF : Type := mkQF {
  pools : list Pool;
  active : list (option Active);
  subscr : Z -> nat -> bool;
  hook : nat
}.

Definition set_pools (ps : list Pool) (st : QF) : QF :=
  {| pools := ps; active := active st; subscr := subscr st; hook := hook st |}.
Definition set_active (acs : list (option Active)) (st : QF) : QF :=
  {| pools := pools st; active := acs; subscr := subscr st; hook := hook st |}.
Definition set_subscr (f : Z -> nat -> bool) (st : QF) : QF :=
  {| pools := pools st; active := active st; subscr := f; hook := hook st |}.

(** Modelled from the spec: the designated failure hook (the host's
    assertion handler is missing); its invocations are counted. *)
Definition Q_onAssert (st : QF) : QF :=
  {| pools := pools st; active := active st; subscr := subscr st;
     hook := S (hook st) |}.

Inductive Status : Type := Success | Overflow | Exhausted.

(** Modelled from the spec: [register_pool(blockSize, blockCount, storage)]
    (qf_dyn.c is missing): pools are registered in strictly increasing block
    size; anything else is a configuration error. *)
Definition register_pool (bs n : nat) (st : QF) : QF :=
  match rev (pools st) with
  | P :: _ =>
      if (blockSize P <? bs)%nat then set_pools (pools st ++ [Pool_init bs n]) st
      else Q_onAssert st
  | [] => set_pools [Pool_init bs n] st
  end.

Definition QF_init (cfg : list (nat * nat)) : QF :=
  fold_left (fun st c => register_pool c.1 c.2 st) cfg
    {| pools := []; active := []; subscr := fun _ _ => false; hook := 0 |}.

(** Modelled from the spec: the search of allocate (qf_dyn.c is missing):
    the first pool, from index [i] on, whose blocks are large enough and
    which has a free block. *)
Fixpoint find_pool (size : nat) (i : nat) (ps : list Pool)
    : option (nat * nat * Pool) :=
  match ps with
  | [] => None
  | P :: rest =>
      if (size <=? blockSize P)%nat then
        match Pool_get P with
        | Some (b, P') => Some (i, b, P')
        | None => find_pool size (S i) rest
        end
      else find_pool size (S i) rest
  end.

(** Modelled from the spec: [allocate(size, signal)] (qf_dyn.c is missing):
    takes a free block of the smallest pool that fits and has one, stamps
    the signal and sets the reference count to 1; when no pool has a free
    block of sufficient size the failure hook fires. *)
Definition allocate (size : nat) (sig : Z) (st : QF) : option EvtRef * QF :=
  match find_pool size 0 (pools st) with
  | Some (i, b, P') =>
      (Some (Pooled i b),
       set_pools (<[i := Pool_stamp b (mkBlock sig 1) P']> (pools st)) st)
  | None => (None, Q_onAssert st)
  end.

(** Modelled from the spec: the header of a pooled event (qf_dyn.c is
    missing). *)
Definition header (st : QF) (e : EvtRef) : option Block :=
  match e with
  | Static _ => None
  | Pooled i b => P ← pools st !! i; blocks P !! b
  end.

Definition refCount (st : QF) (e : EvtRef) : Z :=
  match header st e with Some h => refCtr h | None => 0 end.


(** Whether the block of a pooled event sits on its pool's free list. *)
Definition on_free_list (st : QF) (e : EvtRef) : Prop :=
  match e with
  | Static _ => False
  | Pooled i b => exists P, pools st !! i = Some P /\ b ∈ free P
  end.

(** Modelled from the spec: [retain(event)] (qf_dyn.c is missing):
    increments the reference count; on a statically allocated event there
    is nothing to count. *)
Definition retain (e : EvtRef) (st : QF) : QF :=
  match e with
  | Static _ => st
  | Pooled i b =>
      match pools st !! i with
      | Some P =>
          match blocks P !! b with
          | Some h =>
              set_pools
                (<[i := Pool_stamp b (mkBlock (blk_sig h) (refCtr h + 1)) P]>
                   (pools st)) st
          | None => st
          end
      | None => st
      end
  end.

(** Modelled from the spec: [release(event)] (qf_dyn.c is missing):
    decrements the reference count and, on reaching zero, returns the block
    to the free list of its pool; on a statically allocated event there is
    nothing to count. *)
Definition release (e : EvtRef) (st : QF) : QF :=
  match e with
  | Static _ => st
  | Pooled i b =>
      match pools st !! i with
      | Some P =>
          match blocks P !! b with
          | Some h =>
              let P' := Pool_stamp b (mkBlock (blk_sig h) (refCtr h - 1)) P in
              let P'' := if refCtr h - 1 =? 0 then Pool_put b P' else P' in
              set_pools (<[i := P'']> (pools st)) st
          | None => st
          end
      | None => st
      end
  end.

(** Modelled from the spec: [try_post(queue, event)] with its overflow
    policy (qf_actq.c is missing): with room, the reference goes in at the
    tail and the event's count goes up by one; on a full queue the event is
    dropped and its reference released, or the failure hook fires, as the
    queue's policy says.  A post to a priority at which no active object was
    started fires the failure hook. *)
Definition try_post (p : nat) (e : EvtRef) (st : QF) : Status * QF :=
  match active st !! p with
  | Some (Some a) =>
      if is_full (queue a) then
        match policy a with
        | Drop => (Overflow, release e st)
        | Fatal => (Overflow, Q_onAssert st)
        end
      else
        (Success,
         retain e
           (set_active
              (<[p := Some (set_queue (Queue_insert e (queue a)) a)]> (active st))
              st))
  | _ => (Overflow, Q_onAssert st)
  end.





(** Modelled from the spec: [subscribe] and [unsubscribe] (qf_ps.c is
    missing). *)
Definition subscribe (p : nat) (sig : Z) (st : QF) : QF :=
  set_subscr (fun s q => if (s =? sig) && (q =? p)%nat then true else subscr st s q) st.
Definition unsubscribe (p : nat) (sig : Z) (st : QF) : QF :=
  set_subscr (fun s q => if (s =? sig) && (q =? p)%nat then false else subscr st s q) st.

(** Modelled from the spec: [start] (qf_act.c is missing), as far as the
    queue goes: registers an active object at priority [p] with a queue of
    [cap] entries; a priority already taken is a configuration error. *)
Definition start (p cap : nat) (pol : Policy) (st : QF) : QF :=
  match active st !! p with
  | Some (Some _) => Q_onAssert st
  | _ =>
      let acs := active st ++ replicate (S p - length (active st)) None in
      set_active (<[p := Some (mkActive (Queue_init cap) pol)]> acs) st
  end.

(** The calls on the pools a program can make. *)
Inductive Op : Type :=
  | Allocate (size : nat) (sig : Z)
  | Retain (e : EvtRef)
  | Release (e : EvtRef).

Definition exec (o : Op) (st : QF) : QF :=
  match o with
  | Allocate size sig => (allocate size sig st).2
  | Retain e => retain e st
  | Release e => release e st
  end.

(** Whether an event is held: its reference count is positive.  An event
    without a counted header, a statically allocated one, has nothing to
    hold. *)
Definition held (st : QF) (e : EvtRef) : bool :=
  match header st e with
  | Some h => 0 <? refCtr h
  | None => true
  end.

(** Whether a call keeps to the life cycle of events: only an event that is
    held is retained or released. *)
Definition op_ok (o : Op) (st : QF) : bool :=
  match o with
  | Allocate _ _ => true
  | Retain e => held st e
  | Release e => held st e
  end.

(** Whether every call of a sequence keeps to the life cycle at the moment
    it is made. *)
Fixpoint legal (ops : list Op) (st : QF) : bool :=
  match ops with
  | [] => true
  | o :: rest => op_ok o st && legal rest (exec o st)
  end.

(** The context after a sequence of calls. *)
Definition run (ops : list Op) (st : QF) : QF :=
  fold_left (fun s o => exec o s) ops st.

(** The bookkeeping of a pool is consistent: the free list names each block
    at most once and only blocks of the pool, the counters agree with the
    lists, and a block has count 0 exactly when it is on the free list. *)
Definition pool_inv (P : Pool) : Prop :=
  NoDup (free P) /\
  (forall b, b ∈ free P -> (b < length (blocks P))%nat) /\
  length (blocks P) = nTot P /\
  nFree P = length (free P) /\
  forall b h, blocks P !! b = Some h ->
    0 <= refCtr h /\ (refCtr h = 0 <-> b ∈ free P).

(** The bookkeeping of every pool of the context is consistent. *)
Definition QF_inv (st : QF) : Prop := Forall pool_inv (pools st).

(** What the data model promises of a pool. *)
Definition pool_ok (P : Pool) : Prop :=
  (nFree P <= nTot P)%nat /\
  nFree P = length (free P) /\
  forall b h, blocks P !! b = Some h ->
    0 <= refCtr h /\ (refCtr h = 0 <-> b ∈ free P).

End QF.

(** ** A small configuration: two pools, two active objects *)

Module Demo.
Import QF.

(** Two blocks of size 4 and one of size 8; the object of priority 1 has a
    queue of two entries and drops on overflow, the object of priority 2 a
    queue of one entry and treats overflow as fatal; both subscribe to
    signal 7. *)
Definition pools_cfg : list (nat * nat) := [(4, 2); (8, 1)]%nat.

Definition started : QF :=
  subscribe 1 7 (subscribe 2 7
    (start 2 1 Fatal (start 1 2 Drop (QF_init pools_cfg)))).

(** An event of signal 7 has just been allocated: block 0 of pool 0. *)
Definition allocated : QF := (allocate 3 7 started).2.

Definition evt : EvtRef := Pooled 0 0.

(** The queue of the object of priority 1 filled with two posts of [evt]. *)
Definition filled : QF := (try_post 1 evt (try_post 1 evt allocated).2).2.

(** A sequence of calls that exhausts pool 0, allocates from the larger
    pool, retains and releases held events, and asks for a block no pool
    has. *)
Definition calls : list Op :=
  [Allocate 3 7; Allocate 4 8; Allocate 2 9; Retain (Pooled 0 1);
   Release (Pooled 0 0); Release (Pooled 0 1); Allocate 9 1].

(** An event allocated and then released twice. *)
Definition double_release : list Op :=
  [Allocate 3 7; Release evt; Release evt].



End Demo.

(** * Properties *)

(** ** The Missile state machine *)

Section MissileFacts.
Import QEP Missile.

Variables GAME_MISSILE_SPEED_X GAME_TUNNEL_WIDTH GAME_SPEED_X : Z.
Variables MISSILE_BMP EXPLOSION0_BMP : Z.

Local Abbreviation step :=
  (Missile.step GAME_MISSILE_SPEED_X GAME_TUNNEL_WIDTH GAME_SPEED_X
     MISSILE_BMP EXPLOSION0_BMP).
Local Abbreviation trace :=
  (Missile.trace GAME_MISSILE_SPEED_X GAME_TUNNEL_WIDTH GAME_SPEED_X
     MISSILE_BMP EXPLOSION0_BMP).
Local Abbreviation after :=
  (Missile.after GAME_MISSILE_SPEED_X GAME_TUNNEL_WIDTH GAME_SPEED_X
     MISSILE_BMP EXPLOSION0_BMP).
Local Abbreviation flying_guard :=
  (Missile.flying_guard GAME_MISSILE_SPEED_X GAME_TUNNEL_WIDTH).
Local Abbreviation exploding_guard := (Missile.exploding_guard GAME_SPEED_X).
Local Abbreviation fly := (Missile.fly GAME_MISSILE_SPEED_X).
Local Abbreviation explode := (Missile.explode GAME_SPEED_X).
Local Abbreviation position_update := (Missile.position_update MISSILE_BMP).
Local Abbreviation explosion_update :=
  (Missile.explosion_update EXPLOSION0_BMP).
Local Abbreviation boundary_first_after :=
  (Missile.boundary_first_after GAME_MISSILE_SPEED_X GAME_TUNNEL_WIDTH).

Ltac run_step :=
  unfold Missile.step, Missile.dispatch, QEP.dispatch, Missile.handler;
  cbn -[Missile.flying_guard Missile.exploding_guard u8 u32 i8 Z.shiftr].

Lemma step_armed_fire me px py :
  step (armed, me) (MISSILE_FIRE px py) =
  transition armed flying {| x := px; y := py; exp_ctr := exp_ctr me |}.
Proof. reflexivity. Qed.

Lemma step_armed_other me e :
  sig e <> MISSILE_FIRE_SIG -> step (armed, me) e = ignored armed me.
Proof.
  destruct me, e as [s px py]; simpl; intros Hs.
  destruct s; try reflexivity. congruence.
Qed.

Lemma step_flying_tick me px py :
  step (flying, me) (mkQEvt TIME_TICK_SIG px py) =
  if flying_guard me then position_update (fly me)
  else transition flying armed me.
Proof. run_step. destruct (flying_guard me); reflexivity. Qed.

Lemma step_flying_hit_wall me px py :
  step (flying, me) (mkQEvt HIT_WALL_SIG px py) =
  transition flying exploding (set_exp_ctr me 0).
Proof. reflexivity. Qed.

Lemma step_exploding_tick me px py :
  step (exploding, me) (mkQEvt TIME_TICK_SIG px py) =
  if exploding_guard me then explosion_update (explode me)
  else transition exploding armed me.
Proof. run_step. destruct (exploding_guard me); reflexivity. Qed.

Lemma step_top me e : step (QHsm_top, me) e = ignored QHsm_top me.
Proof. destruct me; reflexivity. Qed.

Lemma iter_fly_shift k me : Nat.iter k fly (fly me) = Nat.iter (S k) fly me.
Proof. induction k as [|k IH]; simpl; [reflexivity | now rewrite IH]. Qed.

Lemma boundary_first_after_S n me :
  boundary_first_after (S n) me ->
  flying_guard me = true /\ boundary_first_after n (fly me).
Proof.
  intros [Hlt Hn]. split; [apply (Hlt 0%nat); lia |]. split.
  - intros k Hk. rewrite iter_fly_shift. apply Hlt. lia.
  - now rewrite iter_fly_shift.
Qed.

(** In [flying], ticks move the Missile until the boundary is reached; the
    tick that finds the boundary takes it back to [armed]. *)
Lemma flying_until_boundary n me :
  boundary_first_after n me ->
  trace (flying, me) (replicate (S n) TIME_TICK) =
  map (fun k => position_update (Nat.iter (S k) fly me)) (seq 0 n)
  ++ [transition flying armed (Nat.iter n fly me)].
Proof.
  revert me. induction n as [|n IH]; intros me Hb.
  - destruct Hb as [_ Hg]. simpl in Hg.
    cbn [replicate Missile.trace]. unfold TIME_TICK, pseudo.
    rewrite step_flying_tick, Hg. reflexivity.
  - apply boundary_first_after_S in Hb as [Hg Hb].
    change (replicate (S (S n)) TIME_TICK)
      with (TIME_TICK :: replicate (S n) TIME_TICK).
    cbn [Missile.trace]. unfold TIME_TICK at 1 2 3, pseudo.
    rewrite step_flying_tick, Hg. cbn [next attrs position_update].
    rewrite (IH _ Hb). cbn [seq map app]. f_equal.
    rewrite <- seq_shift, map_map. rewrite iter_fly_shift. f_equal.
    apply map_ext. intros k. now rewrite iter_fly_shift.
Qed.

(** On a screen no wider than 256 columns a position update does not wrap:
    the position grows by exactly the missile speed. *)
Lemma fly_no_wrap me :
  0 <= x me < 256 -> 0 <= GAME_MISSILE_SPEED_X < 2 ^ 31 ->
  GAME_TUNNEL_WIDTH <= 256 -> flying_guard me = true ->
  x (fly me) = x me + GAME_MISSILE_SPEED_X.
Proof.
  intros Hx Hs Hw Hg. unfold Missile.flying_guard, u32 in Hg.
  apply Z.ltb_lt in Hg. rewrite Z.mod_small in Hg by lia.
  simpl. unfold u8. apply Z.mod_small. lia.
Qed.

(** C1: armed, fired into flying, then five ticks of which the fifth is
    the first to find the boundary: four position updates, each moving the
    Missile by the missile speed and posting one image to the Tunnel, then
    one transition back to armed, on the fifth tick. *)
Theorem missile_five_ticks me px py :
  boundary_first_after 4 {| x := px; y := py; exp_ctr := exp_ctr me |} ->
  let fired := {| x := px; y := py; exp_ctr := exp_ctr me |} in
  let tr := trace (armed, me) (MISSILE_FIRE px py :: replicate 5 TIME_TICK) in
  tr = [transition armed flying fired;
        position_update (fly fired);
        position_update (fly (fly fired));
        position_update (fly (fly (fly fired)));
        position_update (fly (fly (fly (fly fired))));
        transition flying armed (fly (fly (fly (fly fired))))] /\
  length (List.filter is_position_update tr) = 4%nat /\
  List.filter (enters armed) tr =
    [transition flying armed (fly (fly (fly (fly fired))))] /\
  tr !! 5%nat = Some (transition flying armed (fly (fly (fly (fly fired))))).
Proof.
  intros Hb fired tr.
  assert (Htr : tr = [transition armed flying fired;
        position_update (fly fired);
        position_update (fly (fly fired));
        position_update (fly (fly (fly fired)));
        position_update (fly (fly (fly (fly fired))));
        transition flying armed (fly (fly (fly (fly fired))))]).
  { unfold tr. cbn [Missile.trace]. rewrite step_armed_fire.
    cbn [next attrs transition]. fold fired.
    rewrite (flying_until_boundary 4 fired Hb). reflexivity. }
  rewrite Htr. repeat split; reflexivity.
Qed.

(** C8: in armed, MISSILE_FIRE stores the position of the event and goes to
    flying; in flying, HIT_WALL goes to exploding. *)
Theorem armed_fire_and_flying_hit_wall me px py :
  Missile_armed me (MISSILE_FIRE px py) =
    ({| x := px; y := py; exp_ctr := exp_ctr me |}, [], Q_TRAN flying) /\
  step (armed, me) (MISSILE_FIRE px py) =
    transition armed flying {| x := px; y := py; exp_ctr := exp_ctr me |} /\
  Missile_flying GAME_MISSILE_SPEED_X GAME_TUNNEL_WIDTH MISSILE_BMP me
    (mkQEvt HIT_WALL_SIG px py) = (me, [], Q_TRAN exploding) /\
  next (step (flying, me) (mkQEvt HIT_WALL_SIG px py)) = exploding.
Proof. repeat split; reflexivity. Qed.

(** C9: the initial transition subscribes to TIME_TICK, yet in armed every
    event other than MISSILE_FIRE, TIME_TICK among them, is passed to the
    top state and ignored there: no transition, and x, y and exp_ctr keep
    their values. *)
Theorem armed_ignores_other_signals me e :
  sig e <> MISSILE_FIRE_SIG ->
  Missile_initial me e = (me, [QActive_subscribe TIME_TICK_SIG], Q_TRAN armed) /\
  Missile.start GAME_MISSILE_SPEED_X GAME_TUNNEL_WIDTH GAME_SPEED_X
    MISSILE_BMP EXPLOSION0_BMP =
    (armed, (l_missile, [QActive_subscribe TIME_TICK_SIG]), [Entry armed]) /\
  Missile_armed me e = (me, [], Q_SUPER QHsm_top) /\
  QHsm_top_handler me e = (me, [], Q_IGNORED) /\
  step (armed, me) e = ignored armed me /\
  TIME_TICK_SIG <> MISSILE_FIRE_SIG.
Proof.
  intros Hs. split; [reflexivity |]. split; [reflexivity |]. split.
  - unfold Missile_armed. destruct (sig e); try reflexivity. congruence.
  - split; [reflexivity |]. split; [now apply step_armed_other | discriminate].
Qed.

Lemma explode_exp_ctr me :
  0 <= exp_ctr me -> exploding_guard me = true ->
  exp_ctr (explode me) = exp_ctr me + 1.
Proof.
  unfold Missile.exploding_guard, Missile.explode. intros H0 Hg.
  apply andb_prop in Hg as [_ Hg%Z.ltb_lt]. simpl. unfold u8.
  apply Z.mod_small. lia.
Qed.

Lemma after_armed_ticks n me :
  after (armed, me) (replicate n TIME_TICK) = (armed, me).
Proof.
  induction n as [|n IH]; [reflexivity |].
  cbn [replicate Missile.after]. rewrite step_armed_other by discriminate.
  exact IH.
Qed.

(** Once in exploding, the machine is back in armed after as many ticks as
    the counter is short of 16. *)
Lemma exploding_expires n me :
  0 <= exp_ctr me <= 15 -> 15 - exp_ctr me < Z.of_nat n ->
  (after (exploding, me) (replicate n TIME_TICK)).1 = armed.
Proof.
  revert me. induction n as [|n IH]; intros me Hr Hn; [lia |].
  cbn [replicate Missile.after]. unfold TIME_TICK at 1 2, pseudo.
  rewrite step_exploding_tick.
  destruct (exploding_guard me) eqn:Hg.
  - cbn [next attrs explosion_update]. apply IH.
    + rewrite explode_exp_ctr by (lia || assumption).
      apply andb_prop in Hg as [_ Hg%Z.ltb_lt]. lia.
    + rewrite explode_exp_ctr by (lia || assumption). lia.
  - cbn [next attrs transition]. now rewrite after_armed_ticks.
Qed.

(** C2, as the code has it: in exploding a tick that finds the missile at
    or beyond GAME_SPEED_X and the counter below 15 advances the counter
    by one and moves the explosion; a tick that does not takes the machine
    back to armed, which happens at the latest on the 16th tick after the
    wall was hit. *)
Theorem exploding_counts_up_to_armed me :
  0 <= exp_ctr me ->
  (exploding_guard me = true ->
     step (exploding, me) TIME_TICK = explosion_update (explode me) /\
     exp_ctr (explode me) = exp_ctr me + 1) /\
  (exploding_guard me = false ->
     step (exploding, me) TIME_TICK = transition exploding armed me) /\
  (after (flying, me) (HIT_WALL :: replicate 16 TIME_TICK)).1 = armed.
Proof.
  intros H0. unfold TIME_TICK at 1 2, pseudo.
  rewrite step_exploding_tick. split; [| split].
  - intros Hg. rewrite Hg. split; [reflexivity | now apply explode_exp_ctr].
  - intros ->. reflexivity.
  - cbn [Missile.after]. unfold HIT_WALL, pseudo.
    rewrite step_flying_hit_wall. cbn [next attrs transition].
    apply exploding_expires; simpl; lia.
Qed.

(** Every event in exploding: the entry action clears the counter, a tick
    advances the explosion or ends it, anything else is ignored. *)
Lemma step_exploding_cases me e :
  step (exploding, me) e =
  match sig e with
  | Q_ENTRY_SIG => ignored exploding (set_exp_ctr me 0)
  | TIME_TICK_SIG =>
      if exploding_guard me then explosion_update (explode me)
      else transition exploding armed me
  | _ => ignored exploding me
  end.
Proof.
  destruct e as [s px py], me as [mx my mc]. destruct s; try reflexivity.
  apply step_exploding_tick.
Qed.

Lemma counter_bounded_step c e :
  counter_bounded c -> counter_bounded (next (step c e), attrs (step c e)).
Proof.
  destruct c as [s me]. unfold counter_bounded. destruct s.
  - rewrite step_top. discriminate.
  - destruct (decide (sig e = MISSILE_FIRE_SIG)) as [Hs | Hs].
    + destruct e as [sg px py]. simpl in Hs. subst sg. discriminate.
    + rewrite step_armed_other by assumption. discriminate.
  - intros _. destruct e as [sg px py]. destruct sg; try discriminate.
    + rewrite step_flying_tick. destruct (flying_guard me); discriminate.
    + intros _. simpl. lia.
  - intros Hc. specialize (Hc eq_refl). simpl in Hc.
    rewrite step_exploding_cases. destruct (sig e); simpl; try (intros _; lia).
    destruct (exploding_guard me) eqn:Hg; [| discriminate].
    intros _. cbn [attrs explosion_update snd].
    rewrite explode_exp_ctr by (lia || assumption).
    apply andb_prop in Hg as [_ Hg%Z.ltb_lt]. lia.
Qed.

Lemma counter_bounded_after es c :
  counter_bounded c -> counter_bounded (after c es).
Proof.
  revert c. induction es as [|e es IH]; intros c Hc; [exact Hc |].
  cbn [Missile.after]. apply IH. now apply counter_bounded_step.
Qed.

(** C10: hitting the wall enters exploding with the counter at 0; from
    then on, whatever events arrive, the counter is at most 15 whenever
    the machine is in exploding, it grows only on a tick that finds
    x >= GAME_SPEED_X and the counter below 15, and a tick that does not
    find that takes the machine to armed. *)
Theorem exp_ctr_never_exceeds_15 (me : Missile) (es : list QEvt) (e : QEvt) :
  let entered := step (flying, me) HIT_WALL in
  let c := after (flying, me) (HIT_WALL :: es) in
  (next entered = exploding /\ exp_ctr (attrs entered) = 0) /\
  (c.1 = exploding -> 0 <= exp_ctr c.2 <= 15) /\
  (c.1 = exploding -> exp_ctr c.2 < exp_ctr (attrs (step c e)) ->
     sig e = TIME_TICK_SIG /\ exploding_guard c.2 = true /\
     exp_ctr (attrs (step c e)) = exp_ctr c.2 + 1) /\
  (c.1 = exploding -> exploding_guard c.2 = false ->
     next (step c TIME_TICK) = armed).
Proof.
  intros entered c.
  assert (Hc : counter_bounded c).
  { unfold c. cbn [Missile.after]. apply counter_bounded_after.
    intros _. simpl. lia. }
  split; [split; reflexivity |]. split; [exact Hc |].
  destruct c as [s m]. simpl. split.
  - intros ->. specialize (Hc eq_refl). simpl in Hc.
    rewrite step_exploding_cases.
    destruct (sig e); simpl; try lia.
    destruct (exploding_guard m) eqn:Hg; simpl; [| lia].
    intros _. repeat split. now apply explode_exp_ctr.
  - intros -> Hg. unfold TIME_TICK, pseudo.
    rewrite step_exploding_tick, Hg. reflexivity.
Qed.

(** *** Every event in every state *)

Lemma step_armed_cases me e :
  step (armed, me) e =
  match sig e with
  | MISSILE_FIRE_SIG =>
      transition armed flying
        {| x := pos_x e; y := pos_y e; exp_ctr := exp_ctr me |}
  | _ => ignored armed me
  end.
Proof. destruct e as [s px py], me as [mx my mc]. destruct s; reflexivity. Qed.

Lemma step_flying_cases me e :
  step (flying, me) e =
  match sig e with
  | TIME_TICK_SIG =>
      if flying_guard me then position_update (fly me)
      else transition flying armed me
  | HIT_WALL_SIG => transition flying exploding (set_exp_ctr me 0)
  | DESTROYED_MINE_SIG => mine_reported me e
  | _ => ignored flying me
  end.
Proof.
  destruct e as [s px py], me as [mx my mc]. destruct s; try reflexivity.
  apply step_flying_tick.
Qed.

Lemma u8_le_u32 v : 0 <= u8 v <= u32 v.
Proof.
  unfold u8, u32.
  rewrite <- (Z.mod_mod_divide v (2 ^ 32) (2 ^ 8))
    by (exists (2 ^ 24); reflexivity).
  split; [apply Z.mod_pos_bound; lia |].
  apply Z.mod_le; [apply Z.mod_pos_bound |]; lia.
Qed.

Lemma u8_small v : 0 <= v < 256 -> u8 v = v.
Proof. intros Hv. unfold u8. apply Z.mod_small. lia. Qed.

Ltac all_steps s e :=
  destruct s;
  rewrite ?step_top, ?step_armed_cases, ?step_flying_cases,
    ?step_exploding_cases;
  destruct (sig e) eqn:?;
  try destruct (flying_guard _) eqn:?;
  try destruct (exploding_guard _) eqn:?;
  cbn [next attrs calls actions transition ignored position_update
       explosion_update mine_reported].

Ltac no_member H :=
  repeat (apply elem_of_cons in H as [H | H]; [try discriminate H |]);
  try (apply elem_of_nil in H; contradiction).


(** X8: one dispatched event posts at most one event, whatever the state
    and the signal, and subscribes to nothing: a handler calls QACTIVE_POST
    at most once, and QActive_subscribe is called by the initial transition
    alone. *)
Theorem one_post_per_event s me e :
  (length (calls (step (s, me) e)) <= 1)%nat /\
  forall sg, QActive_subscribe sg ∉ calls (step (s, me) e).
Proof.
  all_steps s e; (split; [simpl; lia | intros sg H; no_member H]).
Qed.

(** X2: in flying, whatever the event, an image is posted only on a tick,
    only to the Tunnel and only as a Missile image; it carries the position
    the Missile has just moved to, and that position is a column of the
    tunnel: below GAME_TUNNEL_WIDTH.  The Missile is never drawn at or
    beyond the boundary. *)
Theorem flying_images_inside_tunnel me e t oie :
  QACTIVE_POST_image t oie ∈ calls (step (flying, me) e) ->
  sig e = TIME_TICK_SIG /\ t = AO_Tunnel /\
  img_sig oie = MISSILE_IMG_SIG /\
  next (step (flying, me) e) = flying /\
  img_x oie = x (attrs (step (flying, me) e)) /\
  0 <= img_x oie < GAME_TUNNEL_WIDTH /\ img_x oie < 256.
Proof.
  rewrite step_flying_cases. intros H.
  destruct (sig e) eqn:Hs;
    try (cbn [calls transition ignored mine_reported] in H; no_member H; fail).
  destruct (flying_guard me) eqn:Hg;
    [| cbn [calls transition] in H; no_member H].
  cbn [calls position_update] in H.
  apply elem_of_cons in H as [H | H]; [| no_member H].
  injection H as -> ->. cbn [img_sig img_x next attrs position_update].
  repeat (split; [reflexivity |]).
  unfold Missile.flying_guard in Hg. apply Z.ltb_lt in Hg.
  cbn [Missile.fly set_x x].
  pose proof (u8_le_u32 (x me + GAME_MISSILE_SPEED_X)) as Hle.
  assert (u8 (x me + GAME_MISSILE_SPEED_X) < 256)
    by (unfold u8; apply Z.mod_pos_bound; lia).
  lia.
Qed.

(** X7: the Missile never settles in the top state; it gets into flying
    only from armed on MISSILE_FIRE and into exploding only from flying on
    HIT_WALL; a MISSILE_FIRE outside armed and a HIT_WALL outside flying
    change nothing. *)
Theorem missile_state_graph s me e :
  s <> QHsm_top ->
  let s' := next (step (s, me) e) in
  s' <> QHsm_top /\
  (s' = flying -> s = flying \/ (s = armed /\ sig e = MISSILE_FIRE_SIG)) /\
  (s' = exploding -> s = exploding \/ (s = flying /\ sig e = HIT_WALL_SIG)) /\
  (sig e = MISSILE_FIRE_SIG -> s <> armed -> step (s, me) e = ignored s me) /\
  (sig e = HIT_WALL_SIG -> s <> flying -> step (s, me) e = ignored s me).
Proof.
  intros Hs s'. unfold s'.
  all_steps s e; repeat split; intros; try congruence; auto.
Qed.

(** X9: an event leaves every attribute alone that its handler does not
    write: y changes only on a MISSILE_FIRE in armed, x only there and on
    ticks in flying and exploding, exp_ctr only on entering exploding and
    on its entry action and ticks. *)
Theorem attributes_change_only_where_written s me e :
  let me' := attrs (step (s, me) e) in
  (y me' <> y me -> s = armed /\ sig e = MISSILE_FIRE_SIG) /\
  (x me' <> x me ->
     (s = armed /\ sig e = MISSILE_FIRE_SIG) \/
     (sig e = TIME_TICK_SIG /\ (s = flying \/ s = exploding))) /\
  (exp_ctr me' <> exp_ctr me ->
     (s = flying /\ sig e = HIT_WALL_SIG) \/
     (s = exploding /\ (sig e = TIME_TICK_SIG \/ sig e = Q_ENTRY_SIG))).
Proof.
  intros me'. unfold me'.
  all_steps s e;
    cbn [x y exp_ctr Missile.fly Missile.explode set_x set_y set_exp_ctr];
    repeat split; intros; try congruence; auto.
Qed.

(** In armed, ticks make no call that a filter on ignored outcomes could
    count. *)
Lemma armed_ticks_count_nothing (f : Outcome -> bool) n me :
  f (ignored armed me) = false ->
  List.filter f (trace (armed, me) (replicate n TIME_TICK)) = [].
Proof.
  intros Hf. induction n as [|n IH]; [reflexivity |].
  cbn [replicate Missile.trace List.filter].
  rewrite step_armed_other by discriminate. rewrite Hf. exact IH.
Qed.

(** X3: a missile in flight inside a tunnel of at most 256 columns comes
    down: after as many ticks as there are columns between it and the
    boundary it is back in armed, it has stopped within one step of the
    boundary, a whole number of steps from where it was, and y and exp_ctr
    are what they were. *)
Theorem flying_lands_at_boundary n me :
  0 <= x me < GAME_TUNNEL_WIDTH -> GAME_TUNNEL_WIDTH <= 256 ->
  1 <= GAME_MISSILE_SPEED_X < 2 ^ 31 ->
  GAME_TUNNEL_WIDTH - x me <= Z.of_nat n ->
  let c := after (flying, me) (replicate n TIME_TICK) in
  c.1 = armed /\
  GAME_TUNNEL_WIDTH - GAME_MISSILE_SPEED_X <= x c.2 < GAME_TUNNEL_WIDTH /\
  (GAME_MISSILE_SPEED_X | x c.2 - x me) /\
  y c.2 = y me /\ exp_ctr c.2 = exp_ctr me.
Proof.
  revert me. induction n as [|n IH]; intros me Hx Hw Hs Hn; cbv zeta.
  - simpl in Hn. lia.
  - cbn [replicate Missile.after].
    pose proof (step_flying_tick me 0 0) as Hstep.
    change (mkQEvt TIME_TICK_SIG 0 0) with TIME_TICK in Hstep.
    rewrite Hstep. clear Hstep. destruct (flying_guard me) eqn:Hg.
    + cbn [next attrs position_update].
      pose proof (fly_no_wrap me ltac:(lia) ltac:(lia) Hw Hg) as Hfly.
      unfold Missile.flying_guard, u32 in Hg. apply Z.ltb_lt in Hg.
      rewrite Z.mod_small in Hg by lia.
      destruct (IH (fly me)) as (Ha & Hb & Hd & Hy & Hc); try lia.
      split; [exact Ha |]. split; [exact Hb |]. split; [| split].
      * replace (x (after (flying, fly me) (replicate n TIME_TICK)).2 - x me)
          with (x (after (flying, fly me) (replicate n TIME_TICK)).2
                - x (fly me) + GAME_MISSILE_SPEED_X) by lia.
        apply Z.divide_add_r; [exact Hd | apply Z.divide_refl].
      * exact Hy.
      * exact Hc.
    + cbn [next attrs transition]. rewrite after_armed_ticks. cbn [fst snd].
      unfold Missile.flying_guard, u32 in Hg. apply Z.ltb_ge in Hg.
      rewrite Z.mod_small in Hg by lia.
      split; [reflexivity |]. split; [lia |]. split; [| split; reflexivity].
      rewrite Z.sub_diag. apply Z.divide_0_r.
Qed.


(** X5: once the wall was hit, and whatever events arrive, an image posted
    from exploding is an explosion image for the Tunnel whose bitmap is one
    of the four stages EXPLOSION0_BMP + 0..3, the stage being a quarter of
    the counter, which is then between 1 and 15. *)
Theorem explosion_bitmaps_are_four_stages me es e t oie :
  (after (flying, me) (HIT_WALL :: es)).1 = exploding ->
  QACTIVE_POST_image t oie
    ∈ calls (step (after (flying, me) (HIT_WALL :: es)) e) ->
  let ctr := exp_ctr (attrs (step (after (flying, me) (HIT_WALL :: es)) e)) in
  sig e = TIME_TICK_SIG /\ t = AO_Tunnel /\ img_sig oie = EXPLOSION_SIG /\
  1 <= ctr <= 15 /\ 0 <= ctr / 4 <= 3 /\
  img_bmp oie = u8 (EXPLOSION0_BMP + ctr / 4).
Proof.
  intros Hst H.
  assert (Hc : counter_bounded (after (flying, me) (HIT_WALL :: es))).
  { cbn [Missile.after]. apply counter_bounded_after. intros _. simpl. lia. }
  destruct (after (flying, me) (HIT_WALL :: es)) as [s m].
  cbn [fst] in Hst. subst s. specialize (Hc eq_refl). cbn [snd] in Hc.
  rewrite step_exploding_cases in H |- *.
  destruct (sig e) eqn:Hs;
    try (cbn [calls ignored] in H; no_member H; fail).
  destruct (exploding_guard m) eqn:Hg;
    [| cbn [calls transition] in H; no_member H].
  cbn [calls explosion_update] in H.
  apply elem_of_cons in H as [H | H]; [| no_member H].
  injection H as -> ->.
  cbn [attrs explosion_update img_sig img_bmp]. cbv zeta.
  apply andb_prop in Hg as [_ Hg%Z.ltb_lt].
  cbn [Missile.explode set_x set_exp_ctr exp_ctr].
  rewrite !(u8_small (exp_ctr m + 1)) by lia.
  rewrite Z.shiftr_div_pow2 by lia. change (2 ^ 2) with 4.
  repeat (split; [reflexivity || lia |]).
  split; [| reflexivity].
  assert ((exp_ctr m + 1) / 4 < 4) by (apply Z.div_lt_upper_bound; lia).
  split; [apply Z.div_pos; lia | lia].
Qed.

(** An explosion left to itself: of n ticks, the first k are stages of
    the explosion, k being what is left of the 15 stages and of the steps
    of GAME_SPEED_X that fit under x; each stage moves the explosion one
    step back and advances the counter by one. *)
Lemma exploding_run n me :
  0 <= x me < 256 -> 1 <= GAME_SPEED_X -> 0 <= exp_ctr me <= 15 ->
  let k := Z.min (Z.of_nat n)
             (Z.min (15 - exp_ctr me) (x me / GAME_SPEED_X)) in
  length (List.filter is_explosion_update
            (trace (exploding, me) (replicate n TIME_TICK))) = Z.to_nat k /\
  (after (exploding, me) (replicate n TIME_TICK)).2 =
    {| x := x me - k * GAME_SPEED_X; y := y me;
       exp_ctr := exp_ctr me + k |} /\
  (k < Z.of_nat n ->
   (after (exploding, me) (replicate n TIME_TICK)).1 = armed).
Proof.
  revert me. induction n as [|n IH]; intros me Hx Hs Hc; cbv zeta.
  - assert (0 <= x me / GAME_SPEED_X) by (apply Z.div_pos; lia).
    rewrite Z.min_l by lia. cbn [replicate Missile.trace Missile.after snd].
    split; [reflexivity |]. split; [| simpl; lia].
    destruct me as [mx my mc]. cbn. f_equal; lia.
  - cbn [replicate Missile.trace Missile.after].
    pose proof (step_exploding_tick me 0 0) as Hstep.
    change (mkQEvt TIME_TICK_SIG 0 0) with TIME_TICK in Hstep.
    rewrite Hstep. clear Hstep. destruct (exploding_guard me) eqn:Hg.
    + apply andb_prop in Hg as [Hgx%Z.leb_le Hgc%Z.ltb_lt].
      assert (Hex : explode me = {| x := x me - GAME_SPEED_X; y := y me;
                                    exp_ctr := exp_ctr me + 1 |}).
      { unfold Missile.explode, set_x, set_exp_ctr. cbn [x y exp_ctr].
        now rewrite !u8_small by lia. }
      cbn [next attrs explosion_update List.filter].
      change (is_explosion_update (explosion_update (explode me))) with true.
      cbn [length]. rewrite Hex.
      destruct (IH {| x := x me - GAME_SPEED_X; y := y me;
                      exp_ctr := exp_ctr me + 1 |})
        as (Hlen & Hend & Harmed); cbn [x y exp_ctr]; try lia.
      cbn [x y exp_ctr] in Hlen, Hend, Harmed.
      assert (H0 : 0 <= (x me - GAME_SPEED_X) / GAME_SPEED_X)
        by (apply Z.div_pos; lia).
      assert (Hq : (x me - GAME_SPEED_X) / GAME_SPEED_X
                   = x me / GAME_SPEED_X - 1).
      { replace (x me - GAME_SPEED_X) with (x me + (-1) * GAME_SPEED_X)
          by lia.
        rewrite Z.div_add by lia. lia. }
      rewrite Hq in Hlen, Hend, Harmed, H0.
      set (q := x me / GAME_SPEED_X) in *.
      set (k' := Z.min (Z.of_nat n) (Z.min (15 - (exp_ctr me + 1)) (q - 1)))
        in *.
      assert (Hk : Z.min (Z.of_nat (S n)) (Z.min (15 - exp_ctr me) q) = k' + 1)
        by (unfold k'; lia).
      rewrite Hk. split; [rewrite Hlen; unfold k'; lia |].
      split; [| intros Hlt; apply Harmed; lia].
      rewrite Hend. f_equal; lia.
    + cbn [next attrs transition List.filter].
      change (is_explosion_update (transition exploding armed me)) with false.
      cbn iota. rewrite armed_ticks_count_nothing by reflexivity.
      rewrite after_armed_ticks. cbn [fst snd length].
      assert (0 <= x me / GAME_SPEED_X) by (apply Z.div_pos; lia).
      assert (Hz : Z.min (15 - exp_ctr me) (x me / GAME_SPEED_X) = 0).
      { apply andb_false_iff in Hg as [Hgx%Z.leb_gt | Hgc%Z.ltb_ge].
        - rewrite (Z.div_small (x me)) by lia. lia.
        - lia. }
      rewrite Hz. rewrite Z.min_r by lia.
      split; [reflexivity |]. split; [| reflexivity].
      destruct me as [mx my mc]. cbn. f_equal; lia.
Qed.

(** X6: an explosion left to itself shows as many stages as fit: 15, or
    fewer when the missile hit the wall less than 15 steps of GAME_SPEED_X
    from the left edge.  After at least 16 ticks the Missile is armed again,
    the explosion has moved back by one step per stage and the counter
    holds the number of stages. *)
Theorem explosion_length n me :
  0 <= x me < 256 -> 1 <= GAME_SPEED_X -> (16 <= n)%nat ->
  let stages := Z.min 15 (x me / GAME_SPEED_X) in
  length (List.filter is_explosion_update
            (trace (flying, me) (HIT_WALL :: replicate n TIME_TICK)))
    = Z.to_nat stages /\
  after (flying, me) (HIT_WALL :: replicate n TIME_TICK) =
    (armed, {| x := x me - stages * GAME_SPEED_X; y := y me;
               exp_ctr := stages |}).
Proof.
  intros Hx Hs Hn stages.
  cbn [Missile.trace Missile.after]. unfold HIT_WALL, pseudo.
  rewrite step_flying_hit_wall. cbn [next attrs transition List.filter].
  change (is_explosion_update (transition flying exploding (set_exp_ctr me 0)))
    with false. cbn iota.
  destruct (exploding_run n (set_exp_ctr me 0)) as (Hlen & Hend & Harmed);
    cbn [x y exp_ctr set_exp_ctr]; try lia.
  cbn [x y exp_ctr set_exp_ctr] in Hlen, Hend, Harmed.
  assert (0 <= x me / GAME_SPEED_X) by (apply Z.div_pos; lia).
  assert (Hk : Z.min (Z.of_nat n) (Z.min (15 - 0) (x me / GAME_SPEED_X))
               = stages) by (unfold stages; lia).
  rewrite Hk in Hlen, Hend, Harmed. split; [exact Hlen |].
  rewrite (surjective_pairing (after _ _)), Hend, Harmed
    by (unfold stages; lia).
  reflexivity.
Qed.

Lemma mod_by_parts a b q r : 0 <= r < b -> a = b * q + r -> a mod b = r.
Proof. intros Hr Ha. symmetry. now apply (Zmod_unique a b q r). Qed.

(** The row of an explosion image: [(int8_t)((int)me->y - 4U)] is four rows
    up, also above the first row, as long as that fits the signed byte;
    from row 132 on the cast wraps. *)
Lemma explosion_row v :
  0 <= v < 256 -> i8 (u32 (v - 4)) = if v <=? 131 then v - 4 else v - 260.
Proof.
  intros Hv. unfold i8, u32.
  assert (Hu : (v - 4) mod 2 ^ 32 = if 4 <=? v then v - 4 else v - 4 + 2 ^ 32).
  { destruct (4 <=? v) eqn:H4.
    - apply Z.leb_le in H4. apply Z.mod_small. lia.
    - apply Z.leb_gt in H4. apply (mod_by_parts _ _ (-1)); lia. }
  rewrite Hu. destruct (4 <=? v) eqn:H4.
  - apply Z.leb_le in H4. destruct (v <=? 131) eqn:H131.
    + apply Z.leb_le in H131. rewrite Z.mod_small by lia. lia.
    + apply Z.leb_gt in H131.
      rewrite (mod_by_parts (v - 4 + 2 ^ 7) (2 ^ 8) 1 (v - 132)) by lia. lia.
  - apply Z.leb_gt in H4. rewrite (proj2 (Z.leb_le v 131)) by lia.
    rewrite (mod_by_parts (v - 4 + 2 ^ 32 + 2 ^ 7) (2 ^ 8) (2 ^ 24) (v + 124))
      by lia.
    lia.
Qed.

(** X10: where a stage of the explosion is drawn: three columns to the
    right of the new position and four rows above the Missile's row, which
    is a negative row for the first four rows; from row 132 on the cast to
    a signed byte wraps and the row comes out 256 lower.  The bitmap is the
    stage, a quarter of the new counter. *)
Theorem explosion_image_geometry me px py :
  exploding_guard me = true ->
  0 <= x me -> x me - GAME_SPEED_X + 3 < 256 -> 0 <= GAME_SPEED_X ->
  0 <= y me < 256 -> 0 <= exp_ctr me ->
  calls (step (exploding, me) (mkQEvt TIME_TICK_SIG px py)) =
  [QACTIVE_POST_image AO_Tunnel
     {| img_sig := EXPLOSION_SIG;
        img_x := x me - GAME_SPEED_X + 3;
        img_y := if y me <=? 131 then y me - 4 else y me - 260;
        img_bmp := u8 (EXPLOSION0_BMP + (exp_ctr me + 1) / 4) |}].
Proof.
  intros Hg Hx Hcx Hs Hy Hc. rewrite step_exploding_tick, Hg.
  apply andb_prop in Hg as [Hgx%Z.leb_le Hgc%Z.ltb_lt].
  cbn [calls explosion_update Missile.explode set_x set_exp_ctr x y exp_ctr].
  rewrite (u8_small (x me - GAME_SPEED_X)) by lia.
  rewrite (u8_small (x me - GAME_SPEED_X + 3)) by lia.
  rewrite (u8_small (exp_ctr me + 1)) by lia.
  rewrite explosion_row by lia.
  rewrite Z.shiftr_div_pow2 by lia. reflexivity.
Qed.

(** X12: the Missile shows itself on ticks only: an image is posted only
    on a TIME_TICK, only to the Tunnel, and is a Missile image from flying
    or an explosion image from exploding; an armed Missile posts none. *)
Theorem images_only_on_ticks s me e t oie :
  QACTIVE_POST_image t oie ∈ calls (step (s, me) e) ->
  sig e = TIME_TICK_SIG /\ t = AO_Tunnel /\
  ((s = flying /\ img_sig oie = MISSILE_IMG_SIG) \/
   (s = exploding /\ img_sig oie = EXPLOSION_SIG)).
Proof.
  all_steps s e; intros H; try (no_member H; fail);
    (apply elem_of_cons in H as [H | H]; [| no_member H]);
    injection H as -> ->; auto.
Qed.

End MissileFacts.

(** ** The dispatcher *)

Section DispatchFacts.
Import QEP.
Context {State Evt Ext : Type} `{EqDecision State}.
Variable parent : State -> option State.
Variable depth : State -> nat.
Variable height : nat.
Variable handler : State -> Ext -> Evt -> Ext * QState State.
Variables Q_ENTRY_EVT Q_EXIT_EVT Q_INIT_EVT : Evt.

Local Abbreviation dispatch :=
  (QEP.dispatch parent depth height handler Q_ENTRY_EVT Q_EXIT_EVT Q_INIT_EVT).
Local Abbreviation drill :=
  (QEP.drill parent depth handler Q_ENTRY_EVT Q_INIT_EVT).
Local Abbreviation run_actions := (QEP.run_actions handler).
Local Abbreviation ancestors := (QEP.ancestors parent depth).
Local Abbreviation lca := (QEP.lca parent depth).

(** One action is logged per state of the path, in the order of the path. *)
Lemma run_actions_trace mk ev path me :
  (run_actions mk ev path me).2 = map mk path.
Proof.
  revert me. induction path as [|s path IH]; intros me; [reflexivity |].
  cbn [QEP.run_actions map]. specialize (IH (handler s me ev).1).
  destruct (run_actions mk ev path (handler s me ev).1) as [me' tr].
  simpl in *. now rewrite IH.
Qed.

(** The extended state after a path of actions: every handler of the path
    has run, each on what the one before left. *)
Lemma run_actions_ext mk ev path me :
  (run_actions mk ev path me).1 =
  fold_left (fun w s => (handler s w ev).1) path me.
Proof.
  revert me. induction path as [|s path IH]; intros me; [reflexivity |].
  cbn [QEP.run_actions fold_left]. specialize (IH (handler s me ev).1).
  destruct (run_actions mk ev path (handler s me ev).1) as [me' tr].
  exact IH.
Qed.

(** The init steps only enter states. *)
Lemma drill_only_enters fuel s me :
  Forall (fun a => is_exit a = false) (drill fuel s me).2.
Proof.
  revert s me. induction fuel as [|fuel IH]; intros s me; [constructor |].
  cbn [QEP.drill].
  destruct (handler s me Q_INIT_EVT) as [me1 [| |t|p]]; try constructor.
  pose proof (run_actions_trace Entry Q_ENTRY_EVT
                (rev (below (Some s) (ancestors t))) me1) as Htr.
  destruct (run_actions Entry Q_ENTRY_EVT _ me1) as [me2 tr].
  specialize (IH t me2). destruct (drill fuel t me2) as [[s' me3] tr'].
  simpl in *. subst tr. apply Forall_app. split; [| exact IH].
  apply List.Forall_map, Forall_true. reflexivity.
Qed.

(** A state without an initial transition is where the machine settles. *)
Lemma drill_leaf fuel s me :
  (forall w t, (handler s w Q_INIT_EVT).2 <> Q_TRAN t) ->
  (drill fuel s me).1.1 = s /\ (drill fuel s me).2 = [].
Proof.
  intros Hleaf. destruct fuel as [|fuel]; [split; reflexivity |].
  cbn [QEP.drill]. specialize (Hleaf me).
  destruct (handler s me Q_INIT_EVT) as [me1 [| |t|p]];
    try (split; reflexivity).
  now specialize (Hleaf t).
Qed.

(** The chain of a state stops below its parent right after the state. *)
Lemma below_parent s :
  parent s <> Some s -> below (parent s) (ancestors s) = [s].
Proof.
  intros Hs. unfold QEP.ancestors. cbn [up below].
  destruct (decide (Some s = parent s)) as [E | _]; [congruence |].
  f_equal. destruct (parent s) as [p|]; [| reflexivity].
  destruct (depth s) as [|d]; [reflexivity |].
  cbn [up below]. now rewrite decide_True.
Qed.

(** Consecutive states of an ancestor chain are child and parent. *)
Lemma up_next n c pre s r rest :
  up parent n c = pre ++ s :: r :: rest -> parent s = Some r.
Proof.
  revert c pre. induction n as [|n IH]; intros c pre Hup; cbn [up] in Hup.
  - destruct pre; discriminate.
  - destruct pre as [|a pre]; cbn [app] in Hup; injection Hup as Hc Ht.
    + subst c. destruct (parent s) as [p|]; [| discriminate].
      destruct n as [|n]; cbn [up] in Ht; [discriminate |].
      injection Ht as -> _. reflexivity.
    + destruct (parent c) as [p|]; [| destruct pre; discriminate].
      exact (IH _ _ Ht).
Qed.

(** Below the parent of [s], a chain through [s] keeps [s] and what is
    under it. *)
Lemma below_through pre s rest :
  (forall t, t ∈ pre ++ [s] -> parent s <> Some t) ->
  (forall r rest', rest = r :: rest' -> parent s = Some r) ->
  below (parent s) (pre ++ s :: rest) = pre ++ [s].
Proof.
  intros Hacyc Hrest. induction pre as [|a pre IH]; cbn [app below].
  - rewrite decide_False
      by (intros Hx; apply (Hacyc s); [now left | now rewrite <- Hx]).
    f_equal. destruct rest as [|r rest']; [reflexivity |].
    cbn [below]. now rewrite decide_True by (symmetry; eauto).
  - rewrite decide_False
      by (intros Hx; apply (Hacyc a); [now left | now rewrite <- Hx]).
    f_equal. apply IH. intros t Ht. apply Hacyc. now right.
Qed.

(** C5: a self-transition of S, taken while the machine is in S or in any
    state under S (the states [pre] between the current state and S), the
    parent of S being neither S nor one of these as in any tree: the
    machine leaves the states under S, runs the exit action of S and then
    the entry action of S, each handler on what the one before left, before
    any initial transition of S is taken. *)
Theorem self_transition_exits_then_enters cur S pre rest me e me1 :
  ancestors cur = pre ++ S :: rest ->
  (forall t, t ∈ pre ++ [S] -> parent S <> Some t) ->
  QEP.find_handler depth handler cur me e = (me1, TranFrom S S) ->
  let me2 :=
    fold_left (fun w s => (handler s w Q_EXIT_EVT).1) (pre ++ [S]) me1 in
  let me3 := (handler S me2 Q_ENTRY_EVT).1 in
  dispatch cur me e =
    ((drill height S me3).1.1, (drill height S me3).1.2,
     map Exit pre ++ Exit S :: Entry S :: (drill height S me3).2) /\
  Forall (fun a => is_exit a = false) (drill height S me3).2.
Proof.
  intros Hanc Hacyc Hfind me2 me3. split; [| apply drill_only_enters].
  assert (Hp : parent S <> Some S)
    by (apply Hacyc, elem_of_app; right; now left).
  unfold QEP.dispatch. unfold QEP.find_handler in Hfind. rewrite Hfind.
  cbv zeta. unfold QEP.lca. rewrite decide_True by reflexivity.
  rewrite (below_parent S Hp), Hanc.
  rewrite (below_through pre S rest Hacyc)
    by (intros r rest' ->; unfold QEP.ancestors in Hanc;
        exact (up_next _ _ _ _ _ _ Hanc)).
  pose proof (run_actions_trace Exit Q_EXIT_EVT (pre ++ [S]) me1) as Hx.
  pose proof (run_actions_ext Exit Q_EXIT_EVT (pre ++ [S]) me1) as Hm.
  destruct (run_actions Exit Q_EXIT_EVT (pre ++ [S]) me1) as [w xs].
  cbn [fst snd] in Hx, Hm. subst xs w. fold me2.
  cbn [rev app QEP.run_actions]. fold me3.
  destruct (drill height S me3) as [[fin me4] ds]. cbn [fst snd].
  rewrite map_app, <- app_assoc. reflexivity.
Qed.

(** C4, as the tree has it: from A at depth 3 (parent P, grandparent G)
    to B at depth 1, the root R being their only common ancestor, the
    machine runs the exit handlers of A, P and G, innermost first, then the
    entry handler of B, each on what the one before left, settles in B, and
    no state sees two of these actions. *)
Theorem transition_depth3_to_depth1 R G P A B me e me1 :
  parent R = None -> parent G = Some R -> parent P = Some G ->
  parent A = Some P -> parent B = Some R -> G <> B ->
  depth A = 3%nat -> depth B = 1%nat ->
  handler A me e = (me1, Q_TRAN B) ->
  (forall w t, (handler B w Q_INIT_EVT).2 <> Q_TRAN t) ->
  let me2 := (handler A me1 Q_EXIT_EVT).1 in
  let me3 := (handler P me2 Q_EXIT_EVT).1 in
  let me4 := (handler G me3 Q_EXIT_EVT).1 in
  let me5 := (handler B me4 Q_ENTRY_EVT).1 in
  dispatch A me e =
    (B, (drill height B me5).1.2, [Exit A; Exit P; Exit G; Entry B]) /\
  (dispatch A me e).2 = [Exit A; Exit P; Exit G; Entry B] /\
  (dispatch A me e).1.1 = B /\
  NoDup (map action_state (dispatch A me e).2).
Proof.
  intros HR HG HP HA HB HGB HdA HdB Hh Hleaf w2 w3 w4 w5.
  assert (A <> B /\ A <> R /\ P <> B /\ P <> R /\ G <> R /\ B <> R)
    as (HAB & HAR & HPB & HPR & HGR & HBR) by (repeat split; congruence).
  assert (A <> P /\ A <> G /\ P <> G) as (HAP & HAG & HPG)
    by (repeat split; congruence).
  assert (HancA : ancestors A = [A; P; G; R]).
  { unfold QEP.ancestors. rewrite HdA. cbn [up]. now rewrite HA, HP, HG, HR. }
  assert (HancB : ancestors B = [B; R]).
  { unfold QEP.ancestors. rewrite HdB. cbn [up]. now rewrite HB, HR. }
  assert (Hlca : lca A B = Some R).
  { unfold QEP.lca. rewrite decide_False by assumption.
    rewrite HancA, HancB. cbn [List.find].
    rewrite !bool_decide_eq_false_2
      by (rewrite !elem_of_cons, elem_of_nil; intuition congruence).
    now rewrite bool_decide_eq_true_2 by (rewrite !elem_of_cons; auto). }
  assert (HbA : below (Some R) [A; P; G; R] = [A; P; G]).
  { cbn [below]. rewrite !decide_False by congruence.
    now rewrite decide_True. }
  assert (HbB : below (Some R) [B; R] = [B]).
  { cbn [below]. rewrite decide_False by congruence.
    now rewrite decide_True. }
  assert (Hdis : dispatch A me e =
    let me2 := (run_actions Exit Q_EXIT_EVT [A; P; G] me1).1 in
    let me3 := (run_actions Entry Q_ENTRY_EVT [B] me2).1 in
    ((drill height B me3).1.1, (drill height B me3).1.2,
     [Exit A; Exit P; Exit G] ++ [Entry B] ++ (drill height B me3).2)).
  { unfold QEP.dispatch. cbn [walk]. rewrite Hh. cbv zeta.
    rewrite Hlca, HancA, HancB, HbA, HbB. cbn [rev app].
    pose proof (run_actions_trace Exit Q_EXIT_EVT [A; P; G] me1) as Hx.
    destruct (run_actions Exit Q_EXIT_EVT [A; P; G] me1) as [me2 xs].
    pose proof (run_actions_trace Entry Q_ENTRY_EVT [B] me2) as Hn.
    cbn [fst].
    destruct (run_actions Entry Q_ENTRY_EVT [B] me2) as [me3 ns].
    cbn [fst snd] in *. subst xs ns.
    destruct (drill height B me3) as [[fin me4] ds]. reflexivity. }
  rewrite Hdis. cbv zeta. rewrite !run_actions_ext. cbn [fold_left].
  fold w2. fold w3. fold w4. fold w5.
  destruct (drill_leaf height B w5 Hleaf) as [-> ->].
  cbn [app map action_state fst snd]. repeat split.
  repeat (constructor;
          [rewrite ?elem_of_cons, elem_of_nil; intuition congruence |]).
  constructor.
Qed.

End DispatchFacts.

(** ** Event pools *)

Section PoolFacts.
Import QF.

Lemma pool_inv_ok P : pool_inv P -> pool_ok P.
Proof.
  intros (Hnd & Hin & Hlen & Hfree & Hcnt). split; [| split; assumption].
  rewrite Hfree, <- Hlen, <- (length_seq (length (blocks P)) 0).
  apply submseteq_length, NoDup_submseteq; [assumption |].
  intros b Hb. apply elem_of_seq. specialize (Hin b Hb). lia.
Qed.

Lemma Pool_init_inv bs n : pool_inv (Pool_init bs n).
Proof.
  unfold pool_inv, Pool_init; cbn. repeat split.
  - apply NoDup_seq.
  - intros b Hb%elem_of_seq. rewrite length_replicate. lia.
  - apply length_replicate.
  - now rewrite length_seq.
  - apply lookup_replicate in H as [-> _]. simpl. lia.
  - intros _. apply lookup_replicate in H as [_ Hb]. apply elem_of_seq. lia.
  - intros _. apply lookup_replicate in H as [-> _]. reflexivity.
Qed.

(** Taking a block and stamping it with a count of 1. *)
Lemma Pool_get_inv P b P' sg :
  pool_inv P -> Pool_get P = Some (b, P') ->
  pool_inv (Pool_stamp b (mkBlock sg 1) P').
Proof.
  intros (Hnd & Hin & Hlen & Hfree & Hcnt) Hget. unfold Pool_get in Hget.
  destruct (free P) as [|b0 rest] eqn:Hf; [discriminate |].
  injection Hget as <- <-. apply list.NoDup_cons in Hnd as [Hb0 Hnd].
  unfold pool_inv, Pool_stamp; cbn. split; [assumption |].
  split; [| split; [| split]].
  - intros b Hb. rewrite length_insert. apply Hin. now right.
  - now rewrite length_insert.
  - rewrite Hfree. simpl. lia.
  - intros b h Hb. destruct (decide (b = b0)) as [-> | Hne].
    + rewrite list_lookup_insert_eq in Hb by (apply Hin; now left).
      injection Hb as <-. simpl. split; [lia |]. split; [lia | tauto].
    + rewrite list_lookup_insert_ne in Hb by congruence.
      destruct (Hcnt b h Hb) as [H0 Hiff]. split; [assumption |].
      rewrite Hiff, elem_of_cons. tauto.
Qed.

(** One more reference to a block that is held. *)
Lemma Pool_retain_inv P b h :
  pool_inv P -> blocks P !! b = Some h -> 0 < refCtr h ->
  pool_inv (Pool_stamp b (mkBlock (blk_sig h) (refCtr h + 1)) P).
Proof.
  intros (Hnd & Hin & Hlen & Hfree & Hcnt) Hb Hpos.
  pose proof (lookup_lt_Some _ _ _ Hb) as Hlt.
  destruct (Hcnt b h Hb) as [_ Hiff].
  unfold pool_inv, Pool_stamp; cbn. rewrite length_insert.
  repeat (split; [assumption |]).
  intros b' h' Hb'. destruct (decide (b' = b)) as [-> | Hne].
  - rewrite list_lookup_insert_eq in Hb' by assumption.
    injection Hb' as <-. simpl. split; [lia |]. split; [lia |].
    intros Hx. apply Hiff in Hx. lia.
  - rewrite list_lookup_insert_ne in Hb' by congruence. now apply Hcnt.
Qed.

(** One reference less; the last one takes the block back to the free list. *)
Lemma Pool_release_inv P b h :
  pool_inv P -> blocks P !! b = Some h -> 0 < refCtr h ->
  let P' := Pool_stamp b (mkBlock (blk_sig h) (refCtr h - 1)) P in
  pool_inv (if refCtr h - 1 =? 0 then Pool_put b P' else P').
Proof.
  intros (Hnd & Hin & Hlen & Hfree & Hcnt) Hb Hpos P'.
  pose proof (lookup_lt_Some _ _ _ Hb) as Hlt.
  destruct (Hcnt b h Hb) as [_ Hiff].
  assert (Hnot : b ∉ free P) by (intros Hx; apply Hiff in Hx; lia).
  destruct (refCtr h - 1 =? 0) eqn:Hz.
  - apply Z.eqb_eq in Hz.
    unfold pool_inv, P', Pool_put, Pool_stamp; cbn. rewrite length_insert.
    split; [now apply list.NoDup_cons |]. split; [| split; [| split]].
    + intros b' [-> | Hb']%elem_of_cons; [assumption | now apply Hin].
    + assumption.
    + rewrite Hfree. lia.
    + intros b' h' Hb'. rewrite elem_of_cons.
      destruct (decide (b' = b)) as [-> | Hne].
      * rewrite list_lookup_insert_eq in Hb' by assumption.
        injection Hb' as <-. simpl. split; [lia |]. split; [auto | lia].
      * rewrite list_lookup_insert_ne in Hb' by congruence.
        destruct (Hcnt b' h' Hb') as [H0 Hiff']. split; [assumption |].
        rewrite Hiff'. tauto.
  - apply Z.eqb_neq in Hz.
    unfold pool_inv, P', Pool_stamp; cbn. rewrite length_insert.
    repeat (split; [assumption |]).
    intros b' h' Hb'. destruct (decide (b' = b)) as [-> | Hne].
    + rewrite list_lookup_insert_eq in Hb' by assumption.
      injection Hb' as <-. simpl. split; [lia |]. split; [lia | tauto].
    + rewrite list_lookup_insert_ne in Hb' by congruence. now apply Hcnt.
Qed.

Lemma find_pool_spec size ps k i b P' :
  find_pool size k ps = Some (i, b, P') ->
  exists P, (k <= i)%nat /\ ps !! (i - k)%nat = Some P /\
            Pool_get P = Some (b, P').
Proof.
  revert k. induction ps as [|P0 rest IH]; intros k Hf; [discriminate |].
  cbn [find_pool] in Hf.
  assert (Hrest : find_pool size (S k) rest = Some (i, b, P') ->
            exists P, (k <= i)%nat /\ (P0 :: rest) !! (i - k)%nat = Some P /\
                      Pool_get P = Some (b, P')).
  { intros Hr. destruct (IH _ Hr) as (P & Hle & Hl & Hg). exists P.
    split; [lia |]. split; [| assumption].
    replace (i - k)%nat with (S (i - S k)) by lia. exact Hl. }
  destruct (size <=? blockSize P0)%nat; [| now apply Hrest].
  destruct (Pool_get P0) as [[b0 P0'] |] eqn:Hg; [| now apply Hrest].
  injection Hf as <- <- <-. exists P0. rewrite Nat.sub_diag. auto.
Qed.

Lemma allocate_inv size sg st : QF_inv st -> QF_inv (allocate size sg st).2.
Proof.
  intros Hinv. unfold allocate.
  destruct (find_pool size 0 (pools st)) as [[[i b] P'] |] eqn:Hf;
    [| exact Hinv].
  apply find_pool_spec in Hf as (P & _ & Hl & Hg). rewrite Nat.sub_0_r in Hl.
  apply Forall_insert; [exact Hinv |].
  eapply Pool_get_inv; [| exact Hg]. exact (Forall_lookup_1 _ _ _ _ Hinv Hl).
Qed.

Lemma retain_inv e st :
  QF_inv st -> held st e = true -> QF_inv (retain e st).
Proof.
  intros Hinv Hheld. destruct e as [sg | i b]; [exact Hinv |].
  unfold held in Hheld. cbn [retain header] in *.
  destruct (pools st !! i) as [P |] eqn:Hl; [| exact Hinv].
  cbn in Hheld.
  destruct (blocks P !! b) as [h |] eqn:Hb; [| exact Hinv].
  rename Hheld into Hpos. apply Z.ltb_lt in Hpos.
  apply Forall_insert; [exact Hinv |].
  apply Pool_retain_inv; [| assumption..].
  exact (Forall_lookup_1 _ _ _ _ Hinv Hl).
Qed.

Lemma release_inv e st :
  QF_inv st -> held st e = true -> QF_inv (release e st).
Proof.
  intros Hinv Hheld. destruct e as [sg | i b]; [exact Hinv |].
  unfold held in Hheld. cbn [release header] in *.
  destruct (pools st !! i) as [P |] eqn:Hl; [| exact Hinv].
  cbn in Hheld.
  destruct (blocks P !! b) as [h |] eqn:Hb; [| exact Hinv].
  rename Hheld into Hpos. apply Z.ltb_lt in Hpos.
  apply Forall_insert; [exact Hinv |].
  apply Pool_release_inv; [| assumption..].
  exact (Forall_lookup_1 _ _ _ _ Hinv Hl).
Qed.

Lemma register_pool_inv bs n st : QF_inv st -> QF_inv (register_pool bs n st).
Proof.
  intros Hinv. unfold register_pool.
  destruct (rev (pools st)) as [|P ?].
  - constructor; [apply Pool_init_inv | constructor].
  - destruct (blockSize P <? bs)%nat; [| exact Hinv].
    apply list.Forall_app. split; [exact Hinv |].
    constructor; [apply Pool_init_inv | constructor].
Qed.

Lemma QF_init_inv cfg : QF_inv (QF_init cfg).
Proof.
  unfold QF_init.
  assert (H0 : QF_inv {| pools := []; active := []; subscr := fun _ _ => false;
                         hook := 0 |}) by constructor.
  revert H0. generalize {| pools := []; active := [];
                           subscr := fun _ _ => false; hook := 0%nat |}.
  induction cfg as [|c cfg IH]; intros st Hst; [exact Hst |].
  cbn [fold_left]. apply IH. now apply register_pool_inv.
Qed.

Lemma exec_inv o st : QF_inv st -> op_ok o st = true -> QF_inv (exec o st).
Proof.
  destruct o; cbn [exec op_ok]; intros Hinv Hok;
    [now apply allocate_inv | now apply retain_inv | now apply release_inv].
Qed.

Lemma run_inv ops st :
  QF_inv st -> legal ops st = true -> QF_inv (run ops st).
Proof.
  unfold run. revert st.
  induction ops as [|o ops IH]; intros st Hst Hok; [exact Hst |].
  cbn [legal] in Hok. apply andb_prop in Hok as [Hok Hrest].
  cbn [fold_left]. apply IH; [now apply exec_inv | exact Hrest].
Qed.

(** Under consistent bookkeeping an event has count 0 exactly when its block
    is on the free list of its pool. *)
Lemma header_free st e h :
  QF_inv st -> header st e = Some h ->
  0 <= refCtr h /\ (refCtr h = 0 <-> on_free_list st e).
Proof.
  intros Hinv Hh. destruct e as [sg | i b]; [discriminate |].
  cbn [header] in Hh. destruct (pools st !! i) as [P |] eqn:Hl; [| discriminate].
  cbn in Hh. pose proof (Forall_lookup_1 _ _ _ _ Hinv Hl) as HP.
  destruct HP as (_ & _ & _ & _ & Hcnt). destruct (Hcnt b h Hh) as [H0 Hiff].
  split; [assumption |]. cbn [on_free_list]. rewrite Hiff. split.
  - intros Hb. exists P. auto.
  - intros (P' & HP' & Hb). congruence.
Qed.

(** C3, as the life cycle of events has it: after any sequence of calls on
    the pools of any configuration in which only held events are retained
    and released, every pool has between 0 and its configured number of
    blocks free, and every event has a count that is not negative and is 0
    exactly when its block is on the free list of its pool. *)
Theorem pools_stay_consistent (cfg : list (nat * nat)) (ops : list Op) :
  legal ops (QF_init cfg) = true ->
  let st := run ops (QF_init cfg) in
  Forall (fun P => (0 <= nFree P <= nTot P)%nat /\ pool_ok P) (pools st) /\
  forall e h, header st e = Some h ->
    0 <= refCtr h /\ (refCtr h = 0 <-> on_free_list st e).
Proof.
  intros Hok st.
  assert (Hinv : QF_inv st) by (apply run_inv; [apply QF_init_inv | exact Hok]).
  split; [| intros e h; now apply header_free].
  eapply Forall_impl; [| exact Hinv]. intros P HP%pool_inv_ok.
  split; [| exact HP]. destruct HP as [Hle _]. lia.
Qed.

(** ** Reference counts, posts and publish *)

Lemma header_Pooled st e h :
  header st e = Some h ->
  exists i b P, e = Pooled i b /\ pools st !! i = Some P /\
                blocks P !! b = Some h.
Proof.
  destruct e as [sg | i b]; [discriminate |]. cbn [header].
  destruct (pools st !! i) as [P |] eqn:Hl; [| discriminate].
  intros Hb. exists i, b, P. auto.
Qed.

Lemma header_insert st i b P P' h' (st' : QF) :
  pools st !! i = Some P ->
  pools st' = <[i := P']> (pools st) ->
  blocks P' !! b = Some h' ->
  header st' (Pooled i b) = Some h'.
Proof.
  intros Hl Hp Hb. cbn [header]. rewrite Hp.
  rewrite list_lookup_insert_eq by (eapply lookup_lt_Some; exact Hl).
  exact Hb.
Qed.


(** A release of a held event takes exactly one off its count. *)
Lemma header_release st e h :
  header st e = Some h -> 0 < refCtr h ->
  header (release e st) e = Some (mkBlock (blk_sig h) (refCtr h - 1)).
Proof.
  intros Hh Hpos. destruct (header_Pooled _ _ _ Hh) as (i & b & P & -> & Hl & Hb).
  pose proof (lookup_lt_Some _ _ _ Hb) as Hlt.
  cbn [release]. rewrite Hl, Hb.
  eapply header_insert; [exact Hl | reflexivity |].
  destruct (refCtr h - 1 =? 0); cbn; now apply list_lookup_insert_eq.
Qed.


Lemma release_frame e st :
  active (release e st) = active st /\ hook (release e st) = hook st /\
  subscr (release e st) = subscr st.
Proof.
  destruct e as [sg | i b]; [auto |]. cbn [release].
  destruct (pools st !! i) as [P |]; [| auto].
  destruct (blocks P !! b) as [h |]; auto.
Qed.


(** C7: a post to a full queue reports the overflow and leaves every queue
    as it was; under the drop policy it is one release of the event, which
    takes exactly one off the count of a held event, and the failure hook
    stays silent; under the fatal policy the failure hook fires once and
    the pools are left alone. *)
Theorem post_to_full_queue st p a e :
  active st !! p = Some (Some a) -> is_full (queue a) = true ->
  let st' := (try_post p e st).2 in
  (try_post p e st).1 = Overflow /\
  active st' = active st /\
  (exists a', active st' !! p = Some (Some a') /\
              contents (queue a') = contents (queue a)) /\
  (policy a = Drop ->
     st' = release e st /\ hook st' = hook st /\
     forall h, header st e = Some h -> 0 < refCtr h ->
       header st' e = Some (mkBlock (blk_sig h) (refCtr h - 1))) /\
  (policy a = Fatal ->
     hook st' = S (hook st) /\ pools st' = pools st).
Proof.
  intros Ha Hfull st'. unfold st', try_post. rewrite Ha, Hfull.
  destruct (release_frame e st) as (Hact & Hhook & _).
  destruct (policy a); cbn [fst snd].
  - split; [reflexivity |]. split; [exact Hact |]. split.
    + exists a. now rewrite Hact.
    + split; [| discriminate]. intros _. split; [reflexivity |].
      split; [exact Hhook |]. intros h. apply header_release.
  - split; [reflexivity |]. split; [reflexivity |]. split.
    + exists a. auto.
    + split; [discriminate |]. intros _. split; reflexivity.
Qed.







End PoolFacts.

(** The pools of the small configuration after [Demo.calls]: free counts,
    free lists and reference counts. *)
Example pools_after_calls :
  map (fun P => (QF.nFree P, QF.free P, map QF.refCtr (QF.blocks P)))
      (QF.pools (QF.run Demo.calls (QF.QF_init Demo.pools_cfg)))
  = [(1%nat, [0%nat], [0; 1]); (0%nat, [], [1])] /\
  QF.hook (QF.run Demo.calls (QF.QF_init Demo.pools_cfg)) = 1%nat.
Proof. split; reflexivity. Qed.

(** C3, as the life cycle has it, on the small configuration. *)
Lemma pools_stay_consistent_witness :
  QF.legal Demo.calls (QF.QF_init Demo.pools_cfg) = true /\
  Forall (fun P => (0 <= QF.nFree P <= QF.nTot P)%nat /\ QF.pool_ok P)
         (QF.pools (QF.run Demo.calls (QF.QF_init Demo.pools_cfg))).
Proof.
  split; [reflexivity |].
  exact (proj1 (pools_stay_consistent Demo.pools_cfg Demo.calls eq_refl)).
Defined.

(** C3 as stated fails: an event allocated and released twice has count -1
    while its block is on the free list. *)
Lemma double_release_drives_count_negative :
  let st := QF.run Demo.double_release (QF.QF_init Demo.pools_cfg) in
  QF.header st Demo.evt = Some (QF.mkBlock 7 (-1)) /\
  QF.on_free_list st Demo.evt /\
  QF.refCount st Demo.evt < 0.
Proof.
  cbv zeta. split; [reflexivity |]. split; [| reflexivity].
  eexists. split; [reflexivity |]. cbn. constructor.
Qed.



(** C7 on the small configuration: a third post to the queue of priority 1,
    which holds two entries and drops on overflow. *)
Lemma post_to_full_queue_witness :
  QF.is_full (QF.mkQueue [Demo.evt; Demo.evt] 0 0 2) = true /\
  (QF.try_post 1 Demo.evt Demo.filled).1 = QF.Overflow /\
  QF.active (QF.try_post 1 Demo.evt Demo.filled).2 = QF.active Demo.filled /\
  QF.refCount Demo.filled Demo.evt = 3 /\
  QF.refCount (QF.try_post 1 Demo.evt Demo.filled).2 Demo.evt = 2.
Proof.
  split; [reflexivity |].
  pose proof (post_to_full_queue Demo.filled 1
                (QF.mkActive (QF.mkQueue [Demo.evt; Demo.evt] 0 0 2) QF.Drop)
                Demo.evt eq_refl eq_refl) as (Hst & Hact & _ & _ & _).
  split; [exact Hst |]. split; [exact Hact |]. split; reflexivity.
Defined.


(** C4 as stated fails: below the root, A at depth 3 has itself and two
    ancestors, and all three are exited, not two; and the handler of A is
    invoked twice, with the event and with the exit pseudo-event. *)
Lemma depth3_exit_sequence_has_three_states :
  Nested.depth Nested.A = 3%nat /\ Nested.depth Nested.B = 1%nat /\
  QEP.ancestors Nested.parent Nested.depth Nested.A =
    [Nested.A; Nested.P; Nested.G; Nested.R] /\
  QEP.ancestors Nested.parent Nested.depth Nested.B = [Nested.B; Nested.R] /\
  (Nested.dispatch Nested.A [] Nested.GO_B).1.2 =
    [(Nested.A, Nested.GO_B); (Nested.A, Nested.EXIT);
     (Nested.P, Nested.EXIT); (Nested.G, Nested.EXIT);
     (Nested.B, Nested.ENTRY); (Nested.B, Nested.INIT)] /\
  (Nested.dispatch Nested.A [] Nested.GO_B).2 =
    [QEP.Exit Nested.A; QEP.Exit Nested.P; QEP.Exit Nested.G;
     QEP.Entry Nested.B] /\
  (Nested.dispatch Nested.A [] Nested.GO_B).2 <>
    [QEP.Exit Nested.A; QEP.Exit Nested.P; QEP.Entry Nested.B].
Proof. repeat split. discriminate. Qed.

(** C4, as the tree has it, on the nested machine: the handlers of A, P
    and G receive EXIT and the handler of B receives ENTRY, in that order. *)
Lemma transition_depth3_to_depth1_witness :
  Nested.handler Nested.A [] Nested.GO_B =
    ([(Nested.A, Nested.GO_B)], QEP.Q_TRAN Nested.B) /\
  Nested.dispatch Nested.A [] Nested.GO_B =
    (Nested.B,
     [(Nested.A, Nested.GO_B); (Nested.A, Nested.EXIT);
      (Nested.P, Nested.EXIT); (Nested.G, Nested.EXIT);
      (Nested.B, Nested.ENTRY); (Nested.B, Nested.INIT)],
     [QEP.Exit Nested.A; QEP.Exit Nested.P; QEP.Exit Nested.G;
      QEP.Entry Nested.B]).
Proof.
  split; [reflexivity |].
  refine (eq_trans (proj1 (transition_depth3_to_depth1 Nested.parent
    Nested.depth Nested.height Nested.handler Nested.ENTRY Nested.EXIT
    Nested.INIT Nested.R Nested.G Nested.P Nested.A Nested.B [] Nested.GO_B
    [(Nested.A, Nested.GO_B)] eq_refl eq_refl eq_refl eq_refl eq_refl _
    eq_refl eq_refl eq_refl _)) eq_refl).
  - discriminate.
  - intros w t. discriminate.
Defined.

(** C5 on the nested machine: the self-transition of P taken while the
    machine is in A, under P: A is left, then the handler of P receives
    EXIT and ENTRY. *)
Lemma self_transition_exits_then_enters_witness :
  QEP.ancestors Nested.parent Nested.depth Nested.A =
    [Nested.A] ++ Nested.P :: [Nested.G; Nested.R] /\
  Nested.dispatch Nested.A [] Nested.AGAIN_P =
    (Nested.P,
     [(Nested.A, Nested.AGAIN_P); (Nested.P, Nested.AGAIN_P);
      (Nested.A, Nested.EXIT); (Nested.P, Nested.EXIT);
      (Nested.P, Nested.ENTRY); (Nested.P, Nested.INIT)],
     [QEP.Exit Nested.A; QEP.Exit Nested.P; QEP.Entry Nested.P]).
Proof.
  split; [reflexivity |].
  refine (eq_trans (proj1 (self_transition_exits_then_enters Nested.parent
    Nested.depth Nested.height Nested.handler Nested.ENTRY Nested.EXIT
    Nested.INIT Nested.A Nested.P [Nested.A] [Nested.G; Nested.R] []
    Nested.AGAIN_P [(Nested.A, Nested.AGAIN_P); (Nested.P, Nested.AGAIN_P)]
    eq_refl _ eq_refl)) eq_refl).
  intros t Ht Hp. injection Hp as <-.
  apply elem_of_cons in Ht as [Ht | Ht]; [discriminate Ht |].
  apply elem_of_cons in Ht as [Ht | Ht]; [discriminate Ht |].
  now apply elem_of_nil in Ht.
Defined.

(** C1 at the constants of the game: missile speed 2, tunnel width 128, a
    missile fired at x = 118. *)
Lemma missile_five_ticks_witness :
  Missile.boundary_first_after 2 128 4 (Missile.mkMissile 118 50 0) /\
  length (List.filter Missile.is_position_update
            (Missile.trace 2 128 1 7 9 (Missile.armed, Missile.l_missile)
               (Missile.MISSILE_FIRE 118 50
                :: replicate 5 Missile.TIME_TICK))) = 4%nat.
Proof.
  assert (Hb : Missile.boundary_first_after 2 128 4 (Missile.mkMissile 118 50 0)).
  { split; [| reflexivity].
    intros k Hk. do 4 (destruct k as [|k]; [reflexivity |]). lia. }
  split; [exact Hb |].
  exact (proj1 (proj2 (missile_five_ticks 2 128 1 7 9 Missile.l_missile 118 50 Hb))).
Defined.

(** C9 at TIME_TICK, the signal the Missile subscribes to. *)
Lemma armed_ignores_other_signals_witness :
  Missile.sig Missile.TIME_TICK <> Missile.MISSILE_FIRE_SIG /\
  Missile.step 2 128 1 7 9 (Missile.armed, Missile.mkMissile 3 4 5)
    Missile.TIME_TICK
  = Missile.ignored Missile.armed (Missile.mkMissile 3 4 5).
Proof.
  assert (Hs : Missile.sig Missile.TIME_TICK <> Missile.MISSILE_FIRE_SIG)
    by discriminate.
  split; [exact Hs |].
  exact (proj1 (proj2 (proj2 (proj2 (proj2
    (armed_ignores_other_signals 2 128 1 7 9 (Missile.mkMissile 3 4 5)
       Missile.TIME_TICK Hs)))))).
Defined.

(** C2 as stated fails: a tick in exploding takes the counter from 0 to 1. *)
Lemma exploding_tick_raises_counter :
  let me := Missile.mkMissile 5 50 0 in
  let r := Missile.step 2 128 1 7 9 (Missile.exploding, me) Missile.TIME_TICK in
  Missile.next r = Missile.exploding /\
  Missile.exp_ctr (Missile.attrs r) = 1 /\
  ~ Missile.exp_ctr (Missile.attrs r) < Missile.exp_ctr me.
Proof.
  split; [reflexivity | split; [reflexivity |]].
  intros H. vm_compute in H. discriminate H.
Qed.

(** C2 as the code has it, at a missile that explodes at x = 5. *)
Lemma exploding_counts_up_to_armed_witness :
  0 <= Missile.exp_ctr (Missile.mkMissile 5 50 0) /\
  Missile.exp_ctr
    (Missile.attrs
       (Missile.step 2 128 1 7 9 (Missile.exploding, Missile.mkMissile 5 50 0)
          Missile.TIME_TICK)) = 1 /\
  (Missile.after 2 128 1 7 9 (Missile.flying, Missile.mkMissile 5 50 0)
     (Missile.HIT_WALL :: replicate 16 Missile.TIME_TICK)).1 = Missile.armed.
Proof.
  pose proof (exploding_counts_up_to_armed 2 128 1 7 9
                (Missile.mkMissile 5 50 0) ltac:(simpl; lia)) as [Hup [_ Hback]].
  split; [simpl; lia |]. split; [| exact Hback].
  destruct (Hup eq_refl) as [-> _]. reflexivity.
Defined.

(** X2 at a missile at column 118 of a tunnel 128 wide, speed 2: the image
    of the next tick is at column 120. *)
Lemma flying_images_inside_tunnel_witness :
  Missile.QACTIVE_POST_image Missile.AO_Tunnel
    (Missile.mkImage Missile.MISSILE_IMG_SIG 120 50 7)
  ∈ Missile.calls
      (Missile.step 2 128 1 7 9 (Missile.flying, Missile.mkMissile 118 50 0)
         Missile.TIME_TICK) /\
  0 <= 120 < 128.
Proof.
  assert (H : Missile.QACTIVE_POST_image Missile.AO_Tunnel
                (Missile.mkImage Missile.MISSILE_IMG_SIG 120 50 7)
              ∈ Missile.calls
                  (Missile.step 2 128 1 7 9
                     (Missile.flying, Missile.mkMissile 118 50 0)
                     Missile.TIME_TICK)) by constructor.
  split; [exact H |].
  exact (proj1 (proj2 (proj2 (proj2 (proj2 (proj2
    (flying_images_inside_tunnel 2 128 1 7 9 _ _ _ _ H))))))).
Defined.

(** X3 at the same missile: ten ticks cover the ten columns left. *)
Lemma flying_lands_at_boundary_witness :
  128 - 118 <= Z.of_nat 10 /\
  (Missile.after 2 128 1 7 9 (Missile.flying, Missile.mkMissile 118 50 0)
     (replicate 10 Missile.TIME_TICK)).1 = Missile.armed.
Proof.
  split; [simpl; lia |].
  exact (proj1 (flying_lands_at_boundary 2 128 1 7 9 10
                  (Missile.mkMissile 118 50 0)
                  ltac:(simpl; lia) ltac:(lia) ltac:(lia) ltac:(simpl; lia))).
Defined.


(** X5 at the second stage of an explosion at column 100. *)
Lemma explosion_bitmaps_are_four_stages_witness :
  (Missile.after 2 128 1 7 9 (Missile.flying, Missile.mkMissile 100 50 0)
     [Missile.HIT_WALL; Missile.TIME_TICK]).1 = Missile.exploding /\
  Missile.img_bmp (Missile.mkImage Missile.EXPLOSION_SIG 101 46 9) = u8 (9 + 2 / 4).
Proof.
  split; [reflexivity |].
  exact (proj2 (proj2 (proj2 (proj2 (proj2
    (explosion_bitmaps_are_four_stages 2 128 1 7 9
       (Missile.mkMissile 100 50 0) [Missile.TIME_TICK] Missile.TIME_TICK
       Missile.AO_Tunnel (Missile.mkImage Missile.EXPLOSION_SIG 101 46 9)
       eq_refl ltac:(constructor))))))).
Defined.

(** X6 at a missile that hits the wall at column 5: five stages. *)
Lemma explosion_length_witness :
  0 <= 5 < 256 /\
  Missile.after 2 128 1 7 9 (Missile.flying, Missile.mkMissile 5 50 0)
    (Missile.HIT_WALL :: replicate 16 Missile.TIME_TICK)
  = (Missile.armed, Missile.mkMissile 0 50 5).
Proof.
  split; [lia |].
  exact (proj2 (explosion_length 2 128 1 7 9 16 (Missile.mkMissile 5 50 0)
                  ltac:(simpl; lia) ltac:(lia) ltac:(lia))).
Defined.

(** X7 at a missile in flight that hits the wall. *)
Lemma missile_state_graph_witness :
  Missile.flying <> Missile.QHsm_top /\
  Missile.next
    (Missile.step 2 128 1 7 9 (Missile.flying, Missile.mkMissile 5 50 0)
       Missile.HIT_WALL) <> Missile.QHsm_top.
Proof.
  assert (Hs : Missile.flying <> Missile.QHsm_top) by discriminate.
  split; [exact Hs |].
  exact (proj1 (missile_state_graph 2 128 1 7 9 Missile.flying
                  (Missile.mkMissile 5 50 0) Missile.HIT_WALL Hs)).
Defined.

(** X10 at an explosion in the third row: the image is at row -2. *)
Lemma explosion_image_geometry_witness :
  Missile.exploding_guard 1 (Missile.mkMissile 100 2 0) = true /\
  Missile.calls
    (Missile.step 2 128 1 7 9 (Missile.exploding, Missile.mkMissile 100 2 0)
       Missile.TIME_TICK)
  = [Missile.QACTIVE_POST_image Missile.AO_Tunnel
       (Missile.mkImage Missile.EXPLOSION_SIG 102 (-2) 9)].
Proof.
  split; [reflexivity |].
  exact (explosion_image_geometry 2 128 1 7 9 (Missile.mkMissile 100 2 0) 0 0
           eq_refl ltac:(simpl; lia) ltac:(simpl; lia) ltac:(lia)
           ltac:(simpl; lia) ltac:(simpl; lia)).
Defined.

(** X12 at the first stage of an explosion. *)
Lemma images_only_on_ticks_witness :
  Missile.QACTIVE_POST_image Missile.AO_Tunnel
    (Missile.mkImage Missile.EXPLOSION_SIG 102 (-2) 9)
  ∈ Missile.calls
      (Missile.step 2 128 1 7 9 (Missile.exploding, Missile.mkMissile 100 2 0)
         Missile.TIME_TICK) /\
  Missile.sig Missile.TIME_TICK = Missile.TIME_TICK_SIG.
Proof.
  assert (H : Missile.QACTIVE_POST_image Missile.AO_Tunnel
                (Missile.mkImage Missile.EXPLOSION_SIG 102 (-2) 9)
              ∈ Missile.calls
                  (Missile.step 2 128 1 7 9
                     (Missile.exploding, Missile.mkMissile 100 2 0)
                     Missile.TIME_TICK)) by constructor.
  split; [exact H |].
  exact (proj1 (images_only_on_ticks 2 128 1 7 9 _ _ _ _ _ H)).
Defined.
